(** * simplecache: memoized methods keyed by an array argument

    A shallow embedding of [simplecache.py] and its properties.

    The module is a method decorator factory [memoized] built on the
    cache classes of the [cachetools] package, and a mix-in class
    [ArrayMethodCacheMixin] whose initializer creates the per-instance
    dictionary [_cachedict] of method caches.

    Python objects are mutable and shared by reference.  The wrapper
    keeps a reference to the cache object in a local variable while the
    wrapped method runs, and the wrapped method is free to change the
    instance in the meantime.  The model therefore has a store of cache
    objects addressed by location, the instance dictionary holds
    locations, and every callable of the program is a function in a
    state-and-exception monad over that store. *)

From stdpp Require Import gmap strings list.
From Stdlib Require Import ZArith Lia.
From Stdlib.Strings Require Import Byte.

Local Open Scope Z_scope.

(** ** Exceptions and results *)

(** The exception classes that the module names, raises through its
    collaborators, or lets pass.  [RuntimeError] stands for any other
    exception a user method may raise.  The classes are unrelated: no
    subclass of [KeyError] or [ValueError] is modelled. *)
Inductive exn : Type :=
| KeyError
| ValueError
| AttributeError
| TypeError
| RuntimeError (msg : string).

#[global] Instance exn_eq_dec : EqDecision exn.
Proof. solve_decision. Defined.

(** The outcome of evaluating a Python expression: a value, or a raised
    exception. *)
Inductive res (A : Type) : Type :=
| Ok (a : A)
| Raise (e : exn).
Arguments Ok {A} a.
Arguments Raise {A} e.

(** ** The cache protocol

    [cachetools] is an external package.  The wrapper uses a cache object
    only through subscription, [cache[key]] and [cache[key] = value];
    both may raise and both may change the cache object (a hit on an LRU
    cache records the access). *)
Class Cache (Key V C : Type) : Type := {
  getitem : C → Key → res V * C;
  setitem : C → Key → V → res unit * C
}.

(** ** The store *)

(** Cache objects are addressed by their position in the store. *)
Abbreviation loc := nat.

(** The part of the Python heap that the module can reach from [self]:
    - [self_cachedict] is the attribute [self._cachedict], [None] when
      the instance has no such attribute; the dictionary maps method
      names to cache objects;
    - [caches] holds the cache objects that were created so far;
    - [attrs] is everything else a method of the instance can read and
      write. *)
Record world (C U : Type) : Type := World {
  self_cachedict : option (gmap string loc);
  caches : list C;
  attrs : U
}.
Arguments World {C U} _ _ _.
Arguments self_cachedict {C U} _.
Arguments caches {C U} _.
Arguments attrs {C U} _.

(** ** The monad of Python computations *)

Definition M (C U A : Type) : Type := world C U → res A * world C U.

Section Monad.
Context {C U : Type}.

Definition ret {A} (a : A) : M C U A := λ w, (Ok a, w).

Definition raise {A} (e : exn) : M C U A := λ w, (Raise e, w).

Definition bind {A B} (m : M C U A) (f : A → M C U B) : M C U B :=
  λ w, match m w with
       | (Ok a, w') => f a w'
       | (Raise e, w') => (Raise e, w')
       end.

(** A pure expression that may raise. *)
Definition lift {A} (r : res A) : M C U A := λ w, (r, w).

(** [try: body / except exc: handler].  The handler runs in the world
    the body left behind; any other exception passes through. *)
Definition try_except {A} (body : M C U A) (exc : exn) (handler : M C U A)
  : M C U A :=
  λ w, match body w with
       | (Ok a, w') => (Ok a, w')
       | (Raise e, w') => if decide (e = exc) then handler w' else (Raise e, w')
       end.
End Monad.

Declare Scope py_scope.
Delimit Scope py_scope with py.
Notation "x <- m ;; k" := (bind m (λ x, k))
  (at level 100, m at next level, right associativity) : py_scope.
Notation "m ;; k" := (bind m (λ _, k))
  (at level 100, right associativity) : py_scope.
Local Open Scope py_scope.

(** ** Function objects *)

(** A method, as an object: the metadata attributes that
    [functools.wraps] transfers, and its behaviour when called as
    [method(self, arrayarg, *args, **kwargs)].  [Rest] is the type of
    the pair [(args, kwargs)]. *)
Record function (C U Arr Rest V : Type) : Type := Function {
  __module__ : string;
  __name__ : string;
  __doc__ : option string;
  call : Arr → Rest → M C U V
}.
Arguments Function {C U Arr Rest V} _ _ _ _.
Arguments __module__ {C U Arr Rest V} _.
Arguments __name__ {C U Arr Rest V} _.
Arguments __doc__ {C U Arr Rest V} _.
Arguments call {C U Arr Rest V} _ _ _.

(** [functools.wraps(wrapped)(wrapper)]: assign [__module__], [__name__]
    and [__doc__] of [wrapped] to [wrapper] and return [wrapper]. *)
Definition functools_wraps {C U Arr Rest V}
    (wrapped wrapper : function C U Arr Rest V) : function C U Arr Rest V :=
  {| __module__ := __module__ wrapped;
     __name__ := __name__ wrapped;
     __doc__ := __doc__ wrapped;
     call := call wrapper |}.

(** ** The decorator factory *)

Section Memoized.
Context {Key V C U Arr Rest CArgs : Type} `{!Cache Key V C}.

Abbreviation M := (M C U).
Abbreviation world := (world C U).
Abbreviation function := (function C U Arr Rest V).

(** *** Primitive steps of the wrapper *)

(** [self._cachedict] *)
Definition getattr_cachedict : M (gmap string loc) :=
  λ w, match self_cachedict w with
       | Some d => (Ok d, w)
       | None => (Raise AttributeError, w)
       end.

(** [d[mname]] on a dictionary *)
Definition dict_getitem (d : gmap string loc) (mname : string) : M loc :=
  match d !! mname with
  | Some cache => ret cache
  | None => raise KeyError
  end.

(** [self._cachedict[mname] = cache] *)
Definition cachedict_setitem (mname : string) (cache : loc) : M unit :=
  d <- getattr_cachedict ;;
  λ w, (Ok tt, World (Some (<[mname := cache]> d)) (caches w) (attrs w)).

(** [cachetype(cachesize, *cargs, **ckwargs)]: the constructor either
    raises or yields a new object, which gets the next free location. *)
Definition new (r : res C) : M loc :=
  match r with
  | Ok c => λ w, (Ok (length (caches w)),
                  World (self_cachedict w) (caches w ++ [c]) (attrs w))
  | Raise e => raise e
  end.

(** Run a cache operation on the object at [cache] and write the
    object back.  A live Python reference always has a target; the
    model keeps the function total by an exception for a location
    outside the store. *)
Definition on_cache {A} (cache : loc) (op : C → res A * C) : M A :=
  λ w, match caches w !! cache with
       | Some c => let '(r, c') := op c in
                   (r, World (self_cachedict w) (<[cache := c']> (caches w))
                             (attrs w))
       | None => (Raise (RuntimeError "dangling reference"), w)
       end.

(** [cache[argkey]] *)
Definition cache_getitem (cache : loc) (argkey : Key) : M V :=
  on_cache cache (λ c, getitem c argkey).

(** [cache[argkey] = retval] *)
Definition cache_setitem (cache : loc) (argkey : Key) (retval : V) : M unit :=
  on_cache cache (λ c, setitem c argkey retval).

(** *** The wrapper *)

Section Wrapper.
(** The variables the closure [wrapper] captures.  The cache class is a
    constructor that returns a new cache or raises; the key function
    is pure. *)
Variable cachetype : Z → CArgs → res C.
Variable cachesize : Z.
Variable keyfcn : Arr → res Key.
Variable cargs : CArgs.
Variable mname : string.
Variable arraymethod : Arr → Rest → M V.

(** Lines 132-143: [try: cache = self._cachedict[mname]] and its
    [except KeyError] branch, which creates and registers the cache.
    The attribute access is inside the [try], and [AttributeError] is
    not what the [except] clause names. *)
Definition lookup_or_create : M loc :=
  try_except
    (d <- getattr_cachedict ;; dict_getitem d mname)
    KeyError
    (cache <- new (cachetype cachesize cargs) ;;
     cachedict_setitem mname cache ;;
     ret cache).

(** Lines 150-156, the code after a cache miss: call the method, try to
    store the result, ignore [ValueError], return the result.  The call
    of the method is outside every [try]. *)
Definition compute_and_store (cache : loc) (argkey : Key)
    (arrayarg : Arr) (rest : Rest) : M V :=
  retval <- arraymethod arrayarg rest ;;
  try_except (cache_setitem cache argkey retval) ValueError (ret tt) ;;
  ret retval.

(** [wrapper(self, arrayarg, *args, **kwargs)], lines 127-156.  The
    [return cache[argkey]] of line 146 is the normal end of the [try];
    its [except KeyError: pass] falls through to the computation. *)
Definition wrapper (arrayarg : Arr) (rest : Rest) : M V :=
  cache <- lookup_or_create ;;
  argkey <- lift (keyfcn arrayarg) ;;
  try_except (cache_getitem cache argkey) KeyError
    (compute_and_store cache argkey arrayarg rest).
End Wrapper.

(** The function object [wrapper] as the [def] statement creates it,
    before [functools.wraps] is applied. *)
Definition wrapper_def cachetype cachesize keyfcn cargs
    (arraymethod : function) : function :=
  {| __module__ := "simplecache";
     __name__ := "wrapper";
     __doc__ := Some "The actual wrapper that intercepts the method call arguments, performs the caching, and returns the result to caller.";
     call := wrapper cachetype cachesize keyfcn cargs
               (__name__ arraymethod) (call arraymethod) |}.

(** [memoized(cachetype, cachesize, keyfcn, *cargs, **ckwargs)].
    [cachetype] is a cache class, i.e. a constructor, or [None];
    [cargs] stands for the pair of [cargs] and [ckwargs].  The name of
    the method is read once, when the method is decorated. *)
Definition memoized (cachetype : option (Z → CArgs → res C))
    (cachesize : Z) (keyfcn : Arr → res Key) (cargs : CArgs)
    : function → function :=
  match cachetype with
  | None => λ x, x
  | Some cachetype =>
      λ arraymethod,
        functools_wraps arraymethod
          (wrapper_def cachetype cachesize keyfcn cargs arraymethod)
  end.

(** *** The mix-in class *)

(** [ArrayMethodCacheMixin.__init__(self, *args, **kwargs)]: one
    assignment, [self._cachedict = {}]. *)
Definition __init__ {Args : Type} (args : Args) : M unit :=
  λ w, (Ok tt, World (Some ∅) (caches w) (attrs w)).

End Memoized.

(** ** The contract of the cache classes

    Modelled from the spec: the eviction policy, an external capability
    ([cachetools] is not part of the sources), with the contract of
    its [get] and [set].  Stated on the protocol of [Cache]:
    - a lookup raises nothing but [KeyError], and a miss leaves the
      cache as it was;
    - a store raises nothing but [ValueError] (the value is too large),
      and a rejected store leaves the cache as it was;
    - a key that was stored, or just read, is read back with the same
      value. *)
Class EvictionPolicy (Key V C : Type) `{!Cache Key V C} : Prop := {
  getitem_raises c k e c' :
    getitem c k = (Raise e, c') → e = KeyError ∧ c' = c;
  setitem_raises c k v e c' :
    setitem c k v = (Raise e, c') → e = ValueError ∧ c' = c;
  getitem_setitem c k v c' :
    setitem c k v = (Ok tt, c') → ∃ c'', getitem c' k = (Ok v, c'');
  getitem_getitem c k v c' :
    getitem c k = (Ok v, c') → ∃ c'', getitem c' k = (Ok v, c'')
}.

(** ** Reading the registry *)

(** The cache object registered for a method name, if any. *)
Definition registered {C U} (mname : string) (w : world C U) : option loc :=
  match self_cachedict w with
  | Some d => d !! mname
  | None => None
  end.

(** What the properties below ask of a wrapped method: it leaves the
    registry entry of its own name in place, and the object behind it
    in the store (Python frees no object that is still referenced).  It
    may still use that cache, for instance by calling itself. *)
Definition keeps_entry {C U Arr Rest V} (mname : string)
    (arraymethod : Arr → Rest → M C U V) : Prop :=
  ∀ arrayarg rest w cache,
    registered mname w = Some cache →
    registered mname (snd (arraymethod arrayarg rest w)) = Some cache ∧
    (is_Some (caches w !! cache) →
     is_Some (caches (snd (arraymethod arrayarg rest w)) !! cache)).

(** A method that moreover leaves the cache object behind that entry as
    it found it. *)
Definition keeps_cache {C U Arr Rest V} (mname : string)
    (arraymethod : Arr → Rest → M C U V) : Prop :=
  ∀ arrayarg rest w cache,
    registered mname w = Some cache →
    registered mname (snd (arraymethod arrayarg rest w)) = Some cache ∧
    caches (snd (arraymethod arrayarg rest w)) !! cache = caches w !! cache.

(** A method that creates no cache object. *)
Definition allocates_nothing {C U Arr Rest V}
    (arraymethod : Arr → Rest → M C U V) : Prop :=
  ∀ arrayarg rest w,
    length (caches (snd (arraymethod arrayarg rest w))) = length (caches w).

(** ** Calls in sequence *)

(** The world after a sequence of calls of one method, each call given
    as the pair of its array argument and its remaining arguments.  A
    call that raises leaves its world to the next call. *)
Fixpoint run_calls {C U Arr Rest V} (f : Arr → Rest → M C U V)
    (calls : list (Arr * Rest)) (w : world C U) : world C U :=
  match calls with
  | [] => w
  | (arrayarg, rest) :: calls => run_calls f calls (snd (f arrayarg rest w))
  end.

(** ** Arrays and the default key function *)

#[global] Instance byte_eq_dec : EqDecision byte := Byte.byte_eq_dec.

(** Modelled from the spec: the distinguishing argument, a buffer whose
    raw contents the default key function serializes, flattening its
    internal structure and order ([numpy] is not part of the sources).

    A [numpy.ndarray] is a view of a memory buffer: element [idx] of the
    array occupies [itemsize] bytes of the buffer, starting at [offset]
    plus the sum of the index components weighted by [strides].  [data]
    is the address of the buffer; two arrays built separately have
    different addresses, and may lay the same elements out differently. *)
Record ndarray : Type := Ndarray {
  data : N;
  memory : list byte;
  offset : Z;
  itemsize : nat;
  shape : list nat;
  strides : list Z
}.

(** The indices of an array of the given shape in C (row-major) order,
    last index varying fastest. *)
Fixpoint indices (shape : list nat) : list (list nat) :=
  match shape with
  | [] => [[]]
  | n :: shape => flat_map (λ i, map (cons i) (indices shape)) (seq 0 n)
  end.

(** The position of an element in the buffer. *)
Definition position (array : ndarray) (idx : list nat) : Z :=
  offset array
  + foldr Z.add 0 (zip_with (λ i stride, Z.of_nat i * stride) idx (strides array)).

(** The bytes of one element. *)
Definition item (array : ndarray) (idx : list nat) : list byte :=
  take (itemsize array) (drop (Z.to_nat (position array idx)) (memory array)).

(** [array.tostring()]: the bytes of the elements, in C order. *)
Definition tostring (array : ndarray) : list byte :=
  concat (map (item array) (indices (shape array))).

(** [keyfcn_default(array)], lines 85-89. *)
Definition keyfcn_default (array : ndarray) : res (list byte) :=
  Ok (tostring array).

(** Two arrays have the same content when they have the same shape and
    the same bytes in every element. *)
Definition same_content (a b : ndarray) : Prop :=
  shape a = shape b ∧
  Forall (λ idx, item a idx = item b idx) (indices (shape a)).

#[global] Instance same_content_dec : RelDecision same_content.
Proof. intros a b. unfold same_content. apply _. Defined.

(** ** A cache class: least recently used

    Modelled from the spec: the least-recently-used variant of the
    eviction policy, after [cachetools.LRUCache], the default cache
    type of [memoized], reduced to what a client sees through
    subscription.
    The items are kept least recently used first.  Every value has a
    size, given by [getsizeof] (1 when the constructor gets none); a
    value larger than [maxsize] is refused with [ValueError], and room
    for an accepted value is made by dropping items from the least
    recently used end. *)
Module LRU.
Section LRU.
Context {Key V : Type} `{!EqDecision Key}.

Record LRUCache : Type := Build {
  maxsize : Z;
  getsizeof : V → Z;
  items : list (Key * V)
}.

(** [LRUCache(maxsize, getsizeof=None)] *)
Definition new (maxsize : Z) (getsizeof : option (V → Z)) : res LRUCache :=
  Ok (Build maxsize (default (λ _, 1) getsizeof) []).

Fixpoint assoc (key : Key) (l : list (Key * V)) : option V :=
  match l with
  | [] => None
  | (k, v) :: l => if decide (k = key) then Some v else assoc key l
  end.

Fixpoint remove (key : Key) (l : list (Key * V)) : list (Key * V) :=
  match l with
  | [] => []
  | (k, v) :: l =>
      if decide (k = key) then remove key l else (k, v) :: remove key l
  end.

Definition currsize (sizeof : V → Z) (l : list (Key * V)) : Z :=
  foldr (λ kv n, sizeof kv.2 + n) 0 l.

(** Drop least recently used items until [room] suffices. *)
Fixpoint evict (sizeof : V → Z) (room : Z) (l : list (Key * V))
    : list (Key * V) :=
  match l with
  | [] => []
  | kv :: l' =>
      if room <? currsize sizeof l then evict sizeof room l' else l
  end.

Definition get (c : LRUCache) (key : Key) : res V * LRUCache :=
  match assoc key (items c) with
  | Some v =>
      (Ok v, Build (maxsize c) (getsizeof c) (remove key (items c) ++ [(key, v)]))
  | None => (Raise KeyError, c)
  end.

Definition set (c : LRUCache) (key : Key) (value : V) : res unit * LRUCache :=
  let size := getsizeof c value in
  if maxsize c <? size then (Raise ValueError, c)
  else
    (Ok tt,
     Build (maxsize c) (getsizeof c)
       (evict (getsizeof c) (maxsize c - size) (remove key (items c))
          ++ [(key, value)])).

Definition cache : Cache Key V LRUCache :=
  {| getitem := get; setitem := set |}.
End LRU.
Arguments LRUCache : clear implicits.
#[global] Existing Instance cache.
End LRU.

(** ** Paths through the wrapper *)

Section Paths.
Context {Key V C U Arr Rest CArgs : Type} `{!Cache Key V C}.
Variable cachetype : Z → CArgs → res C.
Variable cachesize : Z.
Variable keyfcn : Arr → res Key.
Variable cargs : CArgs.
Variable mname : string.

(** The wrapper of this configuration around a given method. *)
Definition wrapped (arraymethod : Arr → Rest → M C U V)
    : Arr → Rest → M C U V :=
  wrapper cachetype cachesize keyfcn cargs mname arraymethod.

Variable arraymethod : Arr → Rest → M C U V.

(** A call with [arrayarg] in [w] gets as far as the cache lookup: the
    cache is [cache], the key is [argkey], and the lookup ends with
    [r] in [w1]. *)
Definition probes (arrayarg : Arr) (w : world C U) (cache : loc)
    (argkey : Key) (r : res V) (w1 : world C U) : Prop :=
  ∃ w0, lookup_or_create cachetype cachesize cargs mname w = (Ok cache, w0) ∧
        keyfcn arrayarg = Ok argkey ∧
        cache_getitem cache argkey w0 = (r, w1).

(** A call returns [v] in [w'] with [v] in the cache: it found [v]
    there, or it computed [v] and the cache accepted it. *)
Definition caches_result (arrayarg : Arr) (rest : Rest) (w : world C U)
    (v : V) (w' : world C U) : Prop :=
  ∃ cache argkey,
    probes arrayarg w cache argkey (Ok v) w' ∨
    ∃ w1 w2, probes arrayarg w cache argkey (Raise KeyError) w1 ∧
             arraymethod arrayarg rest w1 = (Ok v, w2) ∧
             cache_setitem cache argkey v w2 = (Ok tt, w').

(** The cache registered for the method is [cache], an object of the
    store that holds nothing under [argkey]. *)
Definition lacks (argkey : Key) (w : world C U) (cache : loc) : Prop :=
  ∃ c c', registered mname w = Some cache ∧ caches w !! cache = Some c ∧
          getitem c argkey = (Raise KeyError, c').

(** A first call returns a value and a second call returns the same
    value whatever the wrapped method is, that is, without calling
    it. *)
Definition second_call_hits (w : world C U)
    (arrayarg1 : Arr) (rest1 : Rest) (arrayarg2 : Arr) (rest2 : Rest)
    : Prop :=
  ∃ v w1 w2,
    wrapped arraymethod arrayarg1 rest1 w = (Ok v, w1) ∧
    ∀ g, wrapped g arrayarg2 rest2 w1 = (Ok v, w2).
End Paths.

(** ** A class to run the wrapper on

    A class deriving from the mix-in, with one method that counts its
    own calls in an attribute of the instance:
<<
    class Scale(ArrayMethodCacheMixin):
        def weigh(self, array, scale):
            self.ncalls += 1
            if scale < 0:
                raise KeyError(scale)
            return scale * sum(bytearray(array.tostring()))
>>
    The attribute [ncalls] is the [attrs] component of the world. *)
Module Scale.
Abbreviation cache := (LRU.LRUCache (list byte) Z).
Abbreviation world := (world cache nat).

Definition byte_sum (bs : list byte) : Z :=
  foldr (λ b n, Z.of_N (Byte.to_N b) + n) 0 bs.

Definition weigh_body (array : ndarray) (scale : Z) : M cache nat Z :=
  λ w, let w' := World (self_cachedict w) (caches w) (S (attrs w)) in
       if scale <? 0 then (Raise KeyError, w')
       else (Ok (scale * byte_sum (tostring array)), w').

Definition weigh : function cache nat ndarray Z Z :=
  {| __module__ := "__main__";
     __name__ := "weigh";
     __doc__ := Some "Weighted sum of the bytes of the array.";
     call := weigh_body |}.

(** [@memoized()], all defaults. *)
Definition memoized_default :=
  memoized (Some LRU.new) 64 keyfcn_default None weigh.

(** [@memoized(getsizeof=abs)]: a value counts for its magnitude, so a
    result above 64 is too large for the cache. *)
Definition memoized_sized :=
  memoized (Some LRU.new) 64 keyfcn_default (Some Z.abs) weigh.

(** [@memoized(cachetype=None)] *)
Definition memoized_off :=
  memoized (None : option (Z → option (Z → Z) → res cache))
    64 keyfcn_default None weigh.

(** The 2 x 2 array of bytes [[1, 2], [3, 4]], once in C order and
    once, in another buffer, in Fortran order. *)
Definition x1 : ndarray :=
  Ndarray 4096%N [x01; x02; x03; x04]%byte 0 1 [2; 2]%nat [2; 1].
Definition x2 : ndarray :=
  Ndarray 8192%N [x01; x03; x02; x04]%byte 0 1 [2; 2]%nat [1; 2].

(** An instance before and after [__init__]. *)
Definition bare : world := World None [] 0%nat.
Definition fresh : world := snd (__init__ tt bare).

(** An instance whose only cache is [c], registered for [weigh], and
    whose method body ran [ncalls] times. *)
Definition with_cache (c : cache) (ncalls : nat) : world :=
  World (Some {["weigh" := 0%nat]}) [c] ncalls.

(** The caches the two decorators create. *)
Definition default_cache : cache := LRU.Build 64 (λ _, 1) [].
Definition sized_cache : cache := LRU.Build 64 Z.abs [].

(** The key of [x1] and of [x2]. *)
Definition key : list byte := [x01; x02; x03; x04]%byte.
End Scale.

(** ** Contiguous arrays *)

(** The number of elements of an array of the given shape. *)
Definition size (shape : list nat) : nat := foldr Nat.mul 1%nat shape.

(** The strides of a C-contiguous array: the elements follow each
    other in the buffer in C order, without gaps. *)
Fixpoint c_strides (itemsize : nat) (shape : list nat) : list Z :=
  match shape with
  | [] => []
  | n :: shape => Z.of_nat (itemsize * size shape) :: c_strides itemsize shape
  end.

Definition c_contiguous (array : ndarray) : Prop :=
  strides array = c_strides (itemsize array) (shape array) ∧ 0 ≤ offset array.

(** The bytes of the [j]-th element slot of the buffer, counted from
    the offset of the array. *)
Definition slot (array : ndarray) (j : nat) : list byte :=
  take (itemsize array)
    (drop (Z.to_nat (offset array) + j * itemsize array) (memory array)).

(** ** Well-formed registries *)

(** Every registered location is in the store, and no two method names
    share a cache object. *)
Definition well_formed {C U} (w : world C U) : Prop :=
  (∀ name cache, registered name w = Some cache →
     (cache < length (caches w))%nat) ∧
  (∀ name1 name2 cache,
     registered name1 w = Some cache → registered name2 w = Some cache →
     name1 = name2).

(** ** Results of calls in sequence *)

(** What the calls of [run_calls] return, one result per call. *)
Fixpoint run_results {C U Arr Rest V} (f : Arr → Rest → M C U V)
    (calls : list (Arr * Rest)) (w : world C U) : list (res V) :=
  match calls with
  | [] => []
  | (arrayarg, rest) :: calls =>
      fst (f arrayarg rest w) :: run_results f calls (snd (f arrayarg rest w))
  end.

(** ** More ways to decorate

    Decorations that go wrong, for the error paths of the wrapper: a
    key function that rejects its argument, a cache class whose
    constructor raises, and two objects that are no proper caches,
    one that cannot be subscripted at all (as with [cachetype=int])
    and one that can be read but not assigned to. *)
Module Variants.

Definition keyfcn_failing (array : ndarray) : res (list byte) :=
  Raise TypeError.

Definition cachetype_failing (cachesize : Z) (cargs : option (Z → Z))
    : res Scale.cache :=
  Raise TypeError.

(** The state of the objects that are no proper caches: nothing. *)
Definition not_subscriptable : Cache (list byte) Z unit :=
  {| getitem := λ c _, (Raise TypeError, c);
     setitem := λ c _ _, (Raise TypeError, c) |}.

Definition read_only : Cache (list byte) Z unit :=
  {| getitem := λ c _, (Raise KeyError, c);
     setitem := λ c _ _, (Raise TypeError, c) |}.

(** The method body of [Scale.weigh], for a world of such objects. *)
Definition weigh_unit (array : ndarray) (scale : Z) : M unit nat Z :=
  λ w, let w' := World (self_cachedict w) (caches w) (S (attrs w)) in
       if scale <? 0 then (Raise KeyError, w')
       else (Ok (scale * Scale.byte_sum (tostring array)), w').

(** An initialized instance in that world, before and after the first
    call created the object. *)
Definition fresh_unit : world unit nat := World (Some ∅) [] 0%nat.
Definition with_unit (ncalls : nat) : world unit nat :=
  World (Some {["weigh" := 0%nat]}) [tt] ncalls.

(** The bytes of [Scale.x1], seen as a vector of four elements. *)
Definition x1_flat : ndarray :=
  Ndarray 4096%N [x01; x02; x03; x04]%byte 0 1 [4]%nat [1].

(** An array of one byte, with a key of its own. *)
Definition x3 : ndarray := Ndarray 12288%N [x09]%byte 0 1 [1]%nat [1].


(** A method that calls the decorated [weigh] and multiplies its
    result by the scale once more.  Under a name of its own it is a
    second method of the class,
<<
        @memoized(getsizeof=abs)
        def gross(self, array, scale):
            return scale * self.weigh(array, scale)
>>
    and under the name [weigh] it is the method of a subclass that
    overrides [weigh] and calls the method it overrides,
<<
    class Heavy(Scale):
        @memoized(getsizeof=abs)
        def weigh(self, array, scale):
            return scale * super(Heavy, self).weigh(array, scale)
>>
    in which case both wrappers find their cache under the one name
    [weigh]. *)
Definition gross (array : ndarray) (scale : Z) : M Scale.cache nat Z :=
  v <- call Scale.memoized_default array scale ;; ret (scale * v).

(** An overriding method that calls the decorated method it overrides
    and then fails:
<<
    class Fragile(Scale):
        @memoized()
        def weigh(self, array, scale):
            super(Fragile, self).weigh(array, scale)
            raise RuntimeError('too heavy')
>>
*)
Definition fragile (array : ndarray) (scale : Z) : M Scale.cache nat Z :=
  call Scale.memoized_default array scale ;; raise (RuntimeError "too heavy").
End Variants.

(** * Properties *)

(** ** The monad and the store *)

Section Store.
Context {C U : Type}.

(** A world written field by field is the world itself. *)
Lemma world_eta (w : world C U) :
  World (self_cachedict w) (caches w) (attrs w) = w.
Proof. by destruct w. Qed.

(** Writing back the object that is already there changes nothing. *)
Lemma world_write_back (w : world C U) cache c :
  caches w !! cache = Some c →
  World (self_cachedict w) (<[cache := c]> (caches w)) (attrs w) = w.
Proof. intros Hc. rewrite list_insert_id by done. apply world_eta. Qed.
End Store.

(** ** The steps of the wrapper *)

Section Steps.
Context {Key V C U Arr Rest CArgs : Type} `{!Cache Key V C}.
Variable cachetype : Z → CArgs → res C.
Variable cachesize : Z.
Variable keyfcn : Arr → res Key.
Variable cargs : CArgs.
Variable mname : string.

Implicit Types (w : world C U) (cache : loc) (argkey : Key) (v : V).
Implicit Types (g arraymethod : Arr → Rest → M C U V).

Local Abbreviation lookup :=
  (lookup_or_create (U := U) cachetype cachesize cargs mname).
Local Abbreviation wrapped_ := (wrapped (U := U) (Rest := Rest)
                             cachetype cachesize keyfcn cargs mname).
Local Abbreviation probes_ := (probes (U := U) cachetype cachesize keyfcn cargs mname).

(** Without the registry the lookup raises [AttributeError]. *)
Lemma lookup_or_create_absent w :
  self_cachedict w = None → lookup w = (Raise AttributeError, w).
Proof.
  intros Hd. unfold lookup_or_create, try_except, bind, getattr_cachedict.
  rewrite Hd. by case_decide.
Qed.

(** A registered cache is returned as it is. *)
Lemma lookup_or_create_registered w cache :
  registered mname w = Some cache → lookup w = (Ok cache, w).
Proof.
  unfold registered, lookup_or_create, try_except, bind,
    getattr_cachedict, dict_getitem.
  destruct (self_cachedict w) as [d|]; [|done]. by intros ->.
Qed.

(** With a registry that lacks the name, the constructor decides. *)
Lemma lookup_or_create_missing w d :
  self_cachedict w = Some d → d !! mname = None →
  lookup w =
    match cachetype cachesize cargs with
    | Ok c => (Ok (length (caches w)),
               World (Some (<[mname := length (caches w)]> d))
                     (caches w ++ [c]) (attrs w))
    | Raise e => (Raise e, w)
    end.
Proof.
  intros Hd Hm.
  unfold lookup_or_create, try_except, bind, getattr_cachedict,
    dict_getitem, cachedict_setitem, new, bind, getattr_cachedict.
  rewrite Hd, Hm. simpl.
  destruct (cachetype cachesize cargs) as [c|e]; simpl; [|done].
  by rewrite Hd.
Qed.

(** Whatever way the lookup succeeds, the cache it returns is the
    registered one afterwards. *)
Lemma lookup_or_create_ok w cache w0 :
  lookup w = (Ok cache, w0) →
  registered mname w0 = Some cache ∧ attrs w0 = attrs w ∧
  (registered mname w = Some cache ∧ w0 = w ∨
   registered mname w = None ∧ cache = length (caches w) ∧
   length (caches w0) = S (length (caches w))).
Proof.
  destruct (self_cachedict w) as [d|] eqn:Hd.
  - destruct (d !! mname) as [l|] eqn:Hm.
    + rewrite (lookup_or_create_registered w l)
        by (unfold registered; by rewrite Hd).
      intros [= <- <-]. unfold registered. rewrite Hd. auto.
    + rewrite (lookup_or_create_missing w d) by done.
      destruct (cachetype cachesize cargs) as [c|e]; [|done].
      intros [= <- <-]. unfold registered. simpl. rewrite Hd.
      rewrite lookup_insert_eq, length_app. simpl.
      split_and!; [done..|]. right. split_and!; [done..|lia].
  - rewrite lookup_or_create_absent by done. done.
Qed.

(** A cache operation touches nothing but the store of caches, and
    neither adds nor removes an object. *)
Lemma on_cache_frame {A} cache (op : C → res A * C) w r w1 :
  on_cache cache op w = (r, w1) →
  self_cachedict w1 = self_cachedict w ∧ attrs w1 = attrs w ∧
  length (caches w1) = length (caches w).
Proof.
  unfold on_cache. destruct (caches w !! cache) as [c|].
  - destruct (op c) as [r' c']. intros [= <- <-]. simpl.
    by rewrite length_insert.
  - by intros [= <- <-].
Qed.

(** A cache operation that does not end in the exception of a dangling
    reference ran on an object of the store. *)
Lemma on_cache_inv {A} cache (op : C → res A * C) w r w1 :
  on_cache cache op w = (r, w1) →
  r ≠ Raise (RuntimeError "dangling reference") →
  ∃ c c', caches w !! cache = Some c ∧ op c = (r, c') ∧
          w1 = World (self_cachedict w) (<[cache := c']> (caches w)) (attrs w).
Proof.
  unfold on_cache. destruct (caches w !! cache) as [c|].
  - destruct (op c) as [r' c'] eqn:Hop. intros [= <- <-] _. eauto.
  - by intros [= <- <-].
Qed.

Lemma on_cache_eq {A} cache (op : C → res A * C) w c r c' :
  caches w !! cache = Some c → op c = (r, c') →
  on_cache cache op w =
    (r, World (self_cachedict w) (<[cache := c']> (caches w)) (attrs w)).
Proof. unfold on_cache. by intros -> ->. Qed.

(** A hit returns the cached value whatever the method is. *)
Lemma wrapped_hit g arrayarg rest w cache argkey v w1 :
  probes_ arrayarg w cache argkey (Ok v) w1 →
  wrapped_ g arrayarg rest w = (Ok v, w1).
Proof.
  intros (w0 & Hl & Hk & Hg).
  unfold wrapped, wrapper, bind, lift, try_except.
  by rewrite Hl, Hk, Hg.
Qed.

(** A miss continues with the computation. *)
Lemma wrapped_miss g arrayarg rest w cache argkey w1 :
  probes_ arrayarg w cache argkey (Raise KeyError) w1 →
  wrapped_ g arrayarg rest w = compute_and_store g cache argkey arrayarg rest w1.
Proof.
  intros (w0 & Hl & Hk & Hg).
  unfold wrapped, wrapper, bind, lift, try_except.
  rewrite Hl, Hk, Hg. by case_decide.
Qed.
End Steps.

(** ** Hits, misses and what follows them *)

Section Calls.
Context {Key V C U Arr Rest CArgs : Type} `{!Cache Key V C}.
Context `{!EvictionPolicy Key V C}.
Variable cachetype : Z → CArgs → res C.
Variable cachesize : Z.
Variable keyfcn : Arr → res Key.
Variable cargs : CArgs.
Variable mname : string.

Implicit Types (w : world C U) (cache : loc) (argkey : Key) (v : V).
Implicit Types (g arraymethod : Arr → Rest → M C U V).

Local Abbreviation wrapped_ := (wrapped (U := U) (Rest := Rest)
                             cachetype cachesize keyfcn cargs mname).
Local Abbreviation probes_ := (probes (U := U) cachetype cachesize keyfcn cargs mname).


(** A lookup that ends in a hit or a miss found the registered cache
    in the store and left the registry alone. *)
Lemma probes_inv arrayarg w cache argkey r w1 :
  probes_ arrayarg w cache argkey r w1 →
  r ≠ Raise (RuntimeError "dangling reference") →
  registered mname w1 = Some cache ∧
  ∃ w0 c c', caches w0 !! cache = Some c ∧ getitem c argkey = (r, c') ∧
             caches w1 !! cache = Some c' ∧
             w1 = World (self_cachedict w0) (<[cache := c']> (caches w0)) (attrs w0).
Proof.
  intros (w0 & Hl & _ & Hg) Hr.
  apply lookup_or_create_ok in Hl as (Hreg & _ & _).
  apply on_cache_inv in Hg as (c & c' & Hc & Hop & ->); [|done].
  split; [done|]. exists w0, c, c'. split_and!; [done..| |done].
  simpl. apply list_lookup_insert_eq. by eapply lookup_lt_Some.
Qed.

(** When the registered cache holds the key, every call with that key
    is a hit. *)
Lemma hit_when_cached arrayarg w cache argkey c v c' :
  registered mname w = Some cache → caches w !! cache = Some c →
  keyfcn arrayarg = Ok argkey → getitem c argkey = (Ok v, c') →
  probes_ arrayarg w cache argkey (Ok v)
    (World (self_cachedict w) (<[cache := c']> (caches w)) (attrs w)).
Proof.
  intros Hreg Hc Hk Hg. exists w. split_and!; [|done|].
  - by apply lookup_or_create_registered.
  - by apply (on_cache_eq _ _ _ c).
Qed.

(** When the registered cache lacks the key, every call with that key
    is a miss, and the lookup leaves the world as it is. *)
Lemma miss_when_absent arrayarg w cache argkey c c' :
  registered mname w = Some cache → caches w !! cache = Some c →
  keyfcn arrayarg = Ok argkey → getitem c argkey = (Raise KeyError, c') →
  probes_ arrayarg w cache argkey (Raise KeyError) w.
Proof.
  intros Hreg Hc Hk Hg. exists w. split_and!; [|done|].
  - by apply lookup_or_create_registered.
  - destruct (getitem_raises _ _ _ _ Hg) as [_ ->].
    unfold cache_getitem. erewrite on_cache_eq by done.
    by rewrite (world_write_back w cache c).
Qed.

End Calls.

(** ** The wrapper *)

Section Claims.
Context {Key V C U Arr Rest CArgs : Type} `{!Cache Key V C}.
Context `{!EvictionPolicy Key V C}.
Variable cachetype : Z → CArgs → res C.
Variable cachesize : Z.
Variable keyfcn : Arr → res Key.
Variable cargs : CArgs.
Variable mname : string.

Implicit Types (w : world C U) (cache : loc) (argkey : Key) (v : V).
Implicit Types (g arraymethod : Arr → Rest → M C U V).
Implicit Types (f : function C U Arr Rest V).

Local Abbreviation wrapped_ := (wrapped (U := U) (Rest := Rest)
                             cachetype cachesize keyfcn cargs mname).
Local Abbreviation probes_ := (probes (U := U) cachetype cachesize keyfcn cargs mname).
Local Abbreviation caches_result_ :=
  (caches_result (U := U) (Rest := Rest) cachetype cachesize keyfcn cargs mname).
Local Abbreviation second_call_hits_ :=
  (second_call_hits (U := U) (Rest := Rest) cachetype cachesize keyfcn cargs mname).

(** A call that leaves its result in the cache returns that result,
    and from then on every call with the same key is a hit. *)
Lemma cached_then_hit arraymethod arrayarg1 rest1 w v w' :
  keeps_entry mname arraymethod →
  caches_result_ arraymethod arrayarg1 rest1 w v w' →
  wrapped_ arraymethod arrayarg1 rest1 w = (Ok v, w') ∧
  ∀ arrayarg2, keyfcn arrayarg2 = keyfcn arrayarg1 →
    ∃ w'', ∀ g rest2, wrapped_ g arrayarg2 rest2 w' = (Ok v, w'').
Proof.
  intros Hm (l & k & [Hhit | (w1 & w2 & Hmiss & Hcall & Hset)]).
  - split; [by eapply wrapped_hit|]. intros a2 Hk.
    pose proof Hhit as (? & _ & Hk1 & _).
    apply probes_inv in Hhit as (Hreg & _ & c & c' & _ & Hg & Hc' & _); [|done].
    destruct (getitem_getitem _ _ _ _ Hg) as [c'' Hg'].
    eexists. intros g r2. eapply wrapped_hit, hit_when_cached.
    + done.
    + done.
    + rewrite Hk. exact Hk1.
    + done.
  - pose proof Hmiss as (? & _ & Hk1 & _).
    split.
    { erewrite wrapped_miss by done.
      unfold compute_and_store, bind, try_except. by rewrite Hcall, Hset. }
    intros a2 Hk.
    apply probes_inv in Hmiss as (Hreg & _); [|done].
    destruct (Hm arrayarg1 rest1 w1 l Hreg) as [Hreg2 _].
    rewrite Hcall in Hreg2. simpl in Hreg2.
    apply on_cache_inv in Hset as (c2 & c3 & Hc2 & Hs & ->); [|done].
    destruct (getitem_setitem _ _ _ _ Hs) as [c'' Hg'].
    eexists. intros g r2. eapply wrapped_hit, hit_when_cached.
    + done.
    + simpl. apply list_lookup_insert_eq. by eapply lookup_lt_Some.
    + rewrite Hk. exact Hk1.
    + done.
Qed.

(** In a world in which the registered cache lacks the key, a call
    with that key goes on to the computation, in that world. *)
Lemma lacks_recomputes g arrayarg rest w cache argkey :
  lacks mname argkey w cache → keyfcn arrayarg = Ok argkey →
  wrapped_ g arrayarg rest w = compute_and_store g cache argkey arrayarg rest w.
Proof.
  intros (c & c' & Hreg & Hc & Hg) Hk.
  by eapply wrapped_miss, miss_when_absent.
Qed.

(** After a miss, the cache lacks the key for as long as it is the
    registered cache and the object is as the lookup left it. *)
Lemma miss_lacks arrayarg w cache argkey w1 w2 :
  probes_ arrayarg w cache argkey (Raise KeyError) w1 →
  registered mname w2 = Some cache → caches w2 !! cache = caches w1 !! cache →
  lacks mname argkey w2 cache.
Proof.
  intros Hmiss Hreg Hc.
  apply probes_inv in Hmiss as (_ & _ & c & c' & _ & Hg & Hc' & _); [|done].
  destruct (getitem_raises _ _ _ _ Hg) as [_ ->].
  exists c, c. by rewrite Hc.
Qed.

(** C1, as amended: when a call of a decorated method returns a value
    that is in the cache afterwards, because it was found there or
    because it was computed and the cache accepted it, a second call
    with an argument of the same key returns that value without
    calling the underlying method. *)
Theorem idempotent_caching arraymethod w arrayarg1 rest1 arrayarg2 rest2 v w' :
  keeps_entry mname arraymethod →
  keyfcn arrayarg2 = keyfcn arrayarg1 →
  caches_result_ arraymethod arrayarg1 rest1 w v w' →
  second_call_hits_ arraymethod w arrayarg1 rest1 arrayarg2 rest2.
Proof.
  intros Hm Hk Hres.
  destruct (cached_then_hit _ _ _ _ _ _ Hm Hres) as [H1 H2].
  destruct (H2 arrayarg2 Hk) as [w'' Hhit].
  exists v, w', w''. split; [done|]. intros g. apply Hhit.
Qed.


(** C3, as amended: when the cache rejects the store of a computed
    value, the wrapper returns the value and raises nothing, and it
    ends in the world the method left: the rejected store added
    nothing.  The next call with the same key computes again if the
    registered cache lacks the key in that world, which is so when the
    method itself left its cache as the lookup left it. *)
Theorem rejection_transparency arraymethod arrayarg rest w cache argkey w1 v w2 w3 :
  probes_ arrayarg w cache argkey (Raise KeyError) w1 →
  arraymethod arrayarg rest w1 = (Ok v, w2) →
  cache_setitem cache argkey v w2 = (Raise ValueError, w3) →
  wrapped_ arraymethod arrayarg rest w = (Ok v, w3) ∧
  w3 = w2 ∧
  (∀ cache' arrayarg',
     lacks mname argkey w3 cache' → keyfcn arrayarg' = keyfcn arrayarg →
     ∀ g rest',
       wrapped_ g arrayarg' rest' w3
         = compute_and_store g cache' argkey arrayarg' rest' w3) ∧
  (registered mname w2 = Some cache →
   caches w2 !! cache = caches w1 !! cache →
   lacks mname argkey w3 cache).
Proof.
  intros Hmiss Hcall Hset.
  assert (w3 = w2) as ->.
  { apply on_cache_inv in Hset as (c2 & c3 & Hc2 & Hs & ->); [|done].
    destruct (setitem_raises _ _ _ _ _ Hs) as [_ ->].
    by apply world_write_back. }
  pose proof Hmiss as (? & _ & Hk1 & _).
  split_and!; [|done| |].
  - erewrite wrapped_miss by done.
    unfold compute_and_store, bind, try_except. rewrite Hcall, Hset.
    by case_decide.
  - intros l' a' Hl Hk g r'. apply lacks_recomputes; [done|].
    by rewrite Hk.
  - intros Hreg Hc. by eapply miss_lacks.
Qed.

(** C4, as amended: when the underlying method raises, the wrapper
    raises the same exception, whichever it is, and ends in the world
    the method left: it stores nothing.  The next call with the same
    key is a miss and calls the method again if the registered cache
    lacks the key in that world, which is so when the method itself
    left its cache as the lookup left it. *)
Theorem failure_propagates arraymethod arrayarg rest w cache argkey w1 e w2 :
  probes_ arrayarg w cache argkey (Raise KeyError) w1 →
  arraymethod arrayarg rest w1 = (Raise e, w2) →
  wrapped_ arraymethod arrayarg rest w = (Raise e, w2) ∧
  (∀ cache' arrayarg',
     lacks mname argkey w2 cache' → keyfcn arrayarg' = keyfcn arrayarg →
     ∀ g rest',
       wrapped_ g arrayarg' rest' w2
         = compute_and_store g cache' argkey arrayarg' rest' w2) ∧
  (registered mname w2 = Some cache →
   caches w2 !! cache = caches w1 !! cache →
   lacks mname argkey w2 cache).
Proof.
  intros Hmiss Hcall.
  pose proof Hmiss as (? & _ & Hk1 & _).
  split_and!.
  - erewrite wrapped_miss by done.
    unfold compute_and_store, bind. by rewrite Hcall.
  - intros l' a' Hl Hk g r'. apply lacks_recomputes; [done|].
    by rewrite Hk.
  - intros Hreg Hc. by eapply miss_lacks.
Qed.

(** C5: on an instance without the registry, a call of a decorated
    method raises [AttributeError]; the method is not called and
    the world is left as it was. *)
Theorem registry_absent_is_fatal f arrayarg rest w :
  self_cachedict w = None →
  call (memoized (Some cachetype) cachesize keyfcn cargs f) arrayarg rest w
    = (Raise AttributeError, w).
Proof.
  intros Hd. simpl. unfold wrapper, bind.
  by rewrite lookup_or_create_absent.
Qed.
End Claims.

(** ** The registry *)

Section Registry.
Context {Key V C U Arr Rest CArgs : Type} `{!Cache Key V C}.
Variable cachetype : Z → CArgs → res C.
Variable cachesize : Z.
Variable keyfcn : Arr → res Key.
Variable cargs : CArgs.
Variable mname : string.

Implicit Types (w : world C U) (cache : loc) (argkey : Key) (v : V).
Implicit Types (g arraymethod : Arr → Rest → M C U V).
Implicit Types (f : function C U Arr Rest V).

Local Abbreviation lookup :=
  (lookup_or_create (U := U) cachetype cachesize cargs mname).
Local Abbreviation wrapped_ := (wrapped (U := U) (Rest := Rest)
                             cachetype cachesize keyfcn cargs mname).
(** What the wrapper does once it holds the cache. *)
Local Abbreviation continue g cache arrayarg rest :=
  (argkey <- lift (keyfcn arrayarg) ;;
   try_except (cache_getitem cache argkey) KeyError
     (compute_and_store g cache argkey arrayarg rest)).

Lemma wrapped_unfold g arrayarg rest w :
  wrapped_ g arrayarg rest w =
    match lookup w with
    | (Ok cache, w0) => continue g cache arrayarg rest w0
    | (Raise e, w0) => (Raise e, w0)
    end.
Proof. reflexivity. Qed.

Lemma lookup_or_create_raises w e w0 :
  lookup w = (Raise e, w0) → w0 = w.
Proof.
  destruct (self_cachedict w) as [d|] eqn:Hd.
  - destruct (d !! mname) as [l|] eqn:Hm.
    + rewrite (lookup_or_create_registered _ _ _ _ w l); [done|].
      unfold registered. by rewrite Hd.
    + rewrite (lookup_or_create_missing _ _ _ _ w d) by done.
      destruct (cachetype cachesize cargs); [done|]. by intros [= _ <-].
  - rewrite lookup_or_create_absent by done. by intros [= _ <-].
Qed.

(** With the cache in hand, the wrapper leaves the registry entry as
    it is, and creates no cache object of its own. *)
Lemma continue_registered arraymethod cache arrayarg rest w :
  keeps_entry mname arraymethod →
  registered mname w = Some cache →
  let w' := snd (continue arraymethod cache arrayarg rest w) in
  registered mname w' = Some cache ∧
  (allocates_nothing arraymethod → length (caches w') = length (caches w)).
Proof.
  intros Hm Hreg. unfold bind, lift, try_except.
  destruct (keyfcn arrayarg) as [k|e]; simpl; [|done].
  destruct (cache_getitem cache k w) as [r0 w1] eqn:Hg.
  apply on_cache_frame in Hg as (Hd1 & _ & Hlen1).
  assert (registered mname w1 = Some cache) as Hreg1.
  { unfold registered in *. by rewrite Hd1. }
  destruct r0 as [v|e]; simpl; [by rewrite Hlen1|].
  case_decide; simpl; [|by rewrite Hlen1].
  unfold compute_and_store, bind, try_except.
  destruct (Hm arrayarg rest w1 cache Hreg1) as [Hreg2 _].
  pose proof (λ Hn : allocates_nothing arraymethod, Hn arrayarg rest w1) as Hlen2.
  destruct (arraymethod arrayarg rest w1) as [[v|e'] w2]; simpl in *.
  - destruct (cache_setitem cache k v w2) as [r3 w3] eqn:Hs.
    apply on_cache_frame in Hs as (Hd3 & _ & Hlen3).
    assert (registered mname w3 = Some cache ∧
            (allocates_nothing arraymethod →
             length (caches w3) = length (caches w))) as Hw3.
    { split; [unfold registered in *; by rewrite Hd3|].
      intros Hn. rewrite Hlen3, Hlen2 by done. done. }
    destruct r3 as [[]|e3]; simpl; [done|]. by case_decide.
  - split; [done|]. intros Hn. by rewrite Hlen2.
Qed.

(** A call on a registered name keeps the entry and does not depend
    on the cache class. *)
Lemma wrapped_registered arraymethod arrayarg rest w cache :
  keeps_entry mname arraymethod →
  registered mname w = Some cache →
  registered mname (snd (wrapped_ arraymethod arrayarg rest w)) = Some cache ∧
  (allocates_nothing arraymethod →
   length (caches (snd (wrapped_ arraymethod arrayarg rest w)))
     = length (caches w)) ∧
  ∀ cachetype',
    wrapper cachetype' cachesize keyfcn cargs mname arraymethod arrayarg rest w
      = wrapped_ arraymethod arrayarg rest w.
Proof.
  intros Hm Hreg.
  destruct (continue_registered _ _ arrayarg rest _ Hm Hreg) as [Hc1 Hc2].
  assert (∀ cachetype',
    wrapper cachetype' cachesize keyfcn cargs mname arraymethod arrayarg rest w
      = continue arraymethod cache arrayarg rest w) as Heq.
  { intros ct'. unfold wrapper. unfold bind at 1.
    by rewrite (lookup_or_create_registered _ _ _ _ w cache). }
  unfold wrapped. split_and!; [by rewrite Heq..|].
  intros ct'. by rewrite !Heq.
Qed.

(** A call on a name that is not registered creates at most one cache
    object, and registers it when it does. *)
Lemma wrapped_unregistered arraymethod arrayarg rest w :
  keeps_entry mname arraymethod → allocates_nothing arraymethod →
  registered mname w = None →
  let w' := snd (wrapped_ arraymethod arrayarg rest w) in
  length (caches w') = length (caches w) ∨
  length (caches w') = S (length (caches w)) ∧ is_Some (registered mname w').
Proof.
  intros Hm Hn Hreg. rewrite wrapped_unfold.
  destruct (lookup w) as [[l|e] w0] eqn:Hl.
  - destruct (lookup_or_create_ok _ _ _ _ _ _ _ Hl)
      as (Hreg0 & _ & [[? _] | (_ & _ & Hlen)]); [congruence|].
    destruct (continue_registered _ _ arrayarg rest _ Hm Hreg0) as [Hr Hlen'].
    right. split; [|by eexists].
    etrans; [by apply Hlen'|done].
  - apply lookup_or_create_raises in Hl as ->. by left.
Qed.

(** Over a sequence of calls the store of caches grows by at most one
    object, and not at all once the name is registered. *)
Lemma run_calls_length arraymethod calls :
  keeps_entry mname arraymethod → allocates_nothing arraymethod →
  ∀ w,
    (is_Some (registered mname w) →
     length (caches (run_calls (wrapped_ arraymethod) calls w))
       = length (caches w)) ∧
    (length (caches (run_calls (wrapped_ arraymethod) calls w))
       ≤ S (length (caches w)))%nat.
Proof.
  intros Hm Hn. induction calls as [|[a r] calls IH]; intros w; simpl.
  { split; [done|lia]. }
  destruct (IH (snd (wrapped_ arraymethod a r w))) as [IH1 IH2].
  assert (is_Some (registered mname w) →
          length (caches (run_calls (wrapped_ arraymethod) calls
                            (snd (wrapped_ arraymethod a r w))))
            = length (caches w)) as Hsame.
  { intros [l Hreg].
    destruct (wrapped_registered _ a r _ _ Hm Hreg) as (Hreg' & Hlen & _).
    rewrite IH1 by eauto. by apply Hlen. }
  split; [done|].
  destruct (registered mname w) as [l|] eqn:Hreg.
  - rewrite Hsame by eauto. lia.
  - destruct (wrapped_unregistered _ a r _ Hm Hn Hreg) as [Hlen | [Hlen Hreg']].
    + lia.
    + rewrite IH1 by done. lia.
Qed.

(** Looking up or creating the cache of this method keeps the entry of
    every name that is registered, and its object. *)
Lemma lookup_or_create_keeps w r w0 name l :
  lookup w = (r, w0) → registered name w = Some l →
  registered name w0 = Some l ∧
  (is_Some (caches w !! l) → is_Some (caches w0 !! l)).
Proof.
  intros Hl Hreg. unfold registered in Hreg.
  destruct (self_cachedict w) as [d|] eqn:Hd; [|done].
  destruct (d !! mname) as [l'|] eqn:Hm.
  - rewrite (lookup_or_create_registered _ _ _ _ w l') in Hl
      by (unfold registered; by rewrite Hd).
    injection Hl as <- <-. unfold registered. by rewrite Hd.
  - rewrite (lookup_or_create_missing _ _ _ _ w d) in Hl by done.
    destruct (cachetype cachesize cargs) as [c|e]; injection Hl as <- <-.
    + unfold registered. simpl. split.
      * rewrite lookup_insert_ne; [done|]. intros <-. congruence.
      * intros [c' Hc']. exists c'. by apply lookup_app_l_Some.
    + unfold registered. by rewrite Hd.
Qed.

(** So does the rest of the wrapper, when the method does. *)
Lemma continue_keeps g cache arrayarg rest w name l :
  keeps_entry name g → registered name w = Some l →
  registered name (snd (continue g cache arrayarg rest w)) = Some l ∧
  (is_Some (caches w !! l) →
   is_Some (caches (snd (continue g cache arrayarg rest w)) !! l)).
Proof.
  assert (∀ {A} (op : C → res A * C) w r w1,
            on_cache cache op w = (r, w1) → registered name w = Some l →
            registered name w1 = Some l ∧
            (is_Some (caches w !! l) → is_Some (caches w1 !! l))) as Hop.
  { intros A op w' r w1 Ho Hreg.
    apply on_cache_frame in Ho as (Hd & _ & Hlen).
    split; [unfold registered in *; by rewrite Hd|].
    rewrite !lookup_lt_is_Some. by rewrite Hlen. }
  intros Hg Hreg. unfold bind, lift, try_except.
  destruct (keyfcn arrayarg) as [k|e]; simpl; [|done].
  destruct (cache_getitem cache k w) as [r0 w1] eqn:Hget.
  destruct (Hop _ _ _ _ _ Hget Hreg) as [Hreg1 Hlive1].
  destruct r0 as [v|e]; simpl; [done|].
  case_decide; simpl; [|done].
  unfold compute_and_store, bind, try_except.
  destruct (Hg arrayarg rest w1 l Hreg1) as [Hreg2 Hlive2].
  destruct (g arrayarg rest w1) as [[v|e'] w2]; simpl in *; [|by auto].
  destruct (cache_setitem cache k v w2) as [r3 w3] eqn:Hset.
  destruct (Hop _ _ _ _ _ Hset Hreg2) as [Hreg3 Hlive3].
  assert (registered name w3 = Some l ∧
          (is_Some (caches w !! l) → is_Some (caches w3 !! l))) as Hw3
    by auto.
  destruct r3 as [[]|e3]; simpl; [done|]. by case_decide.
Qed.

(** X13: a decorated method keeps every entry that its method keeps: methods
    that call other decorated methods, or themselves, meet the
    condition of the properties below. *)
Lemma wrapped_keeps_entry g name :
  keeps_entry name g → keeps_entry name (wrapped_ g).
Proof.
  intros Hg a r w l Hreg. rewrite wrapped_unfold.
  destruct (lookup w) as [[cache|e] w0] eqn:Hl;
    destruct (lookup_or_create_keeps _ _ _ _ _ Hl Hreg) as [Hreg0 Hlive0];
    [|done].
  destruct (continue_keeps g cache a r w0 name l Hg Hreg0) as [Hreg1 Hlive1].
  auto.
Qed.





(** C7: with [cachetype=None] the decorator returns the method it is
    given.  A call of the decorated method is a call of the method,
    in every world, with or without a registry, and so is every
    sequence of calls: the wrapper and its registry play no part. *)
Theorem disabled_cache_is_identity f :
  memoized None cachesize keyfcn cargs f = f ∧
  (∀ arrayarg rest w,
     call (memoized None cachesize keyfcn cargs f) arrayarg rest w
       = call f arrayarg rest w) ∧
  (∀ calls w,
     run_calls (call (memoized None cachesize keyfcn cargs f)) calls w
       = run_calls (call f) calls w).
Proof. by split_and!. Qed.

(** C9: a method decorated with a cache type has the name, the
    documentation string and the module of the original method, and
    not those of the wrapper function. *)
Theorem metadata_preserved f :
  __name__ (memoized (Some cachetype) cachesize keyfcn cargs f) = __name__ f ∧
  __doc__ (memoized (Some cachetype) cachesize keyfcn cargs f) = __doc__ f ∧
  __module__ (memoized (Some cachetype) cachesize keyfcn cargs f)
    = __module__ f.
Proof. by split_and!. Qed.

(** C10: the initializer binds the registry to an empty dictionary,
    whatever its arguments and whatever the registry was, and changes
    nothing else.  After it no method name is registered, so the next
    call of a wrapper creates a new cache. *)
Theorem init_resets_registry {Args} (args : Args) w :
  __init__ args w = (Ok tt, World (Some ∅) (caches w) (attrs w)) ∧
  (∀ {Args'} (args' : Args'), __init__ args' w = __init__ args w) ∧
  (∀ name, registered name (snd (__init__ args w)) = None) ∧
  (∀ c, cachetype cachesize cargs = Ok c →
        lookup (snd (__init__ args w))
          = (Ok (length (caches w)),
             World (Some {[mname := length (caches w)]}) (caches w ++ [c])
                   (attrs w))).
Proof.
  split_and!; [done..| |].
  - intros name. unfold registered. simpl. apply lookup_empty.
  - intros c Hc.
    rewrite (lookup_or_create_missing _ _ _ _ _ ∅) by done.
    by rewrite Hc.
Qed.
End Registry.

(** ** The default key function *)

(** The bytes of an array are determined by its shape and elements. *)
Lemma tostring_same_content (a b : ndarray) :
  same_content a b → tostring a = tostring b.
Proof.
  intros [Hshape Hitems]. unfold tostring. rewrite <- Hshape.
  induction Hitems as [|idx idxs Hidx _ IH]; simpl; [done|].
  by rewrite Hidx, IH.
Qed.

(** C8: two arrays with the same shape and the same elements get the
    same default key, wherever and however they are stored. *)
Theorem keyfcn_default_same_content (a b : ndarray) :
  same_content a b → keyfcn_default a = keyfcn_default b.
Proof.
  intros Hab. unfold keyfcn_default. by rewrite (tostring_same_content a b).
Qed.

(** ** The least-recently-used cache meets the contract *)

Module LRU_facts.
Import LRU.
Section LRU_facts.
Context {Key V : Type} `{!EqDecision Key}.
Implicit Types (l : list (Key * V)) (key : Key) (c : LRUCache Key V).

Lemma assoc_remove key l : assoc key (remove key l) = None.
Proof.
  induction l as [|[k v] l IH]; simpl; [done|].
  case_decide; simpl; [done|]. by case_decide.
Qed.

Lemma assoc_evict sizeof room key l :
  assoc key l = None → assoc key (evict sizeof room l) = None.
Proof.
  induction l as [|[k v] l IH]; [done|].
  intros Hl.
  change (evict sizeof room ((k, v) :: l))
    with (if room <? currsize sizeof ((k, v) :: l)
          then evict sizeof room l else (k, v) :: l).
  destruct (room <? currsize sizeof ((k, v) :: l)); [|done].
  apply IH. simpl in Hl. by case_decide.
Qed.

Lemma assoc_snoc key v l :
  assoc key l = None → assoc key (l ++ [(key, v)]) = Some v.
Proof.
  induction l as [|[k v'] l IH]; simpl.
  - intros _. by case_decide.
  - case_decide; [done|]. apply IH.
Qed.

Lemma get_set c key v c' :
  set c key v = (Ok tt, c') → ∃ c'', get c' key = (Ok v, c'').
Proof.
  unfold set, get. destruct (maxsize c <? getsizeof c v); [done|].
  intros [= <-]. simpl.
  rewrite assoc_snoc by apply assoc_evict, assoc_remove. eauto.
Qed.

Lemma get_get c key v c' :
  get c key = (Ok v, c') → ∃ c'', get c' key = (Ok v, c'').
Proof.
  unfold get. destruct (assoc key (items c)) as [v'|]; [|done].
  intros [= -> <-]. simpl.
  rewrite assoc_snoc by apply assoc_remove. eauto.
Qed.

#[global] Instance eviction_policy : EvictionPolicy Key V (LRUCache Key V).
Proof.
  split.
  - intros c k e c'. simpl. unfold get.
    destruct (assoc k (items c)); [done|]. by intros [= <- <-].
  - intros c k v e c'. simpl. unfold set.
    destruct (maxsize c <? getsizeof c v); [|done]. by intros [= <- <-].
  - apply get_set.
  - apply get_get.
Qed.
End LRU_facts.
End LRU_facts.


(** ** The example class *)

Module Scale_facts.
Import Scale.



Lemma weigh_allocates_nothing : allocates_nothing weigh_body.
Proof.
  intros array scale w. unfold weigh_body. by destruct (scale <? 0).
Qed.

(** Both arrays serialize to the same bytes. *)
Example tostring_x1 : tostring x1 = key.
Proof. reflexivity. Qed.

Example tostring_x2 : tostring x2 = key.
Proof. reflexivity. Qed.

(** The first call computes, the second is served from the cache
    although its scale differs, and the body ran once. *)
Example weigh_twice :
  call memoized_default x1 3 fresh
    = (Ok 30, with_cache (LRU.Build 64 (λ _, 1) [(key, 30)]) 1) ∧
  call memoized_default x2 5 (with_cache (LRU.Build 64 (λ _, 1) [(key, 30)]) 1)
    = (Ok 30, with_cache (LRU.Build 64 (λ _, 1) [(key, 30)]) 1).
Proof. by split. Qed.

(** Without a cache type the method runs on an instance that was never
    initialized, and no registry appears. *)
Example weigh_off :
  call memoized_off x1 3 bare = (Ok 30, World None [] 1%nat).
Proof. reflexivity. Qed.

(** On a fresh instance the first call creates the cache and misses. *)
Lemma first_call_misses_default :
  probes LRU.new 64 keyfcn_default None "weigh" x1 fresh 0%nat key
    (Raise KeyError) (with_cache default_cache 0).
Proof. exists (with_cache default_cache 0). by split_and!. Qed.

Lemma first_call_misses_sized :
  probes LRU.new 64 keyfcn_default (Some Z.abs) "weigh" x1 fresh 0%nat key
    (Raise KeyError) (with_cache sized_cache 0).
Proof. exists (with_cache sized_cache 0). by split_and!. Qed.

(** Idempotent caching at work: the first call computes 3 * 10 and
    stores it, the second call, with the other array of the same
    content, is a hit whatever the method is. *)
Lemma idempotent_caching_witness :
  second_call_hits LRU.new 64 keyfcn_default None "weigh" weigh_body
    fresh x1 3 x2 3.
Proof.
  apply (idempotent_caching LRU.new 64 keyfcn_default None "weigh" weigh_body
           fresh x1 3 x2 3 30
           (with_cache (LRU.Build 64 (λ _, 1) [(key, 30)]) 1)).
  - intros array scale w cache Hreg. unfold weigh_body.
    by destruct (scale <? 0).
  - reflexivity.
  - exists 0%nat, key. right.
    exists (with_cache default_cache 0), (with_cache default_cache 1).
    split_and!; [|reflexivity..].
    exists (with_cache default_cache 0). split_and!; reflexivity.
Defined.

(** The claim C1 as the specification states it fails when the cache
    rejects the result.  With [getsizeof=abs] the result 300 is too
    large for a cache of size 64: the registry exists, the two arrays
    have the same key, and yet the second call is not a hit; the body
    of the method runs twice. *)
Lemma idempotent_caching_counterexample :
  is_Some (self_cachedict fresh) ∧
  keyfcn_default x2 = keyfcn_default x1 ∧
  ¬ second_call_hits LRU.new 64 keyfcn_default (Some Z.abs) "weigh" weigh_body
      fresh x1 30 x2 30 ∧
  attrs (run_calls (call memoized_sized) [(x1, 30); (x2, 30)] fresh) = 2%nat.
Proof.
  split_and!; [by eexists|reflexivity| |reflexivity].
  intros (v & w1 & w2 & Hfirst & Hsecond).
  assert (wrapped LRU.new 64 keyfcn_default (Some Z.abs) "weigh" weigh_body
            x1 30 fresh = (Ok 300, with_cache sized_cache 1)) as Hrun
    by reflexivity.
  rewrite Hrun in Hfirst. injection Hfirst as <- <-.
  pose proof (Hsecond (λ _ _ w, (Raise TypeError, w))) as Hother.
  assert (wrapped LRU.new 64 keyfcn_default (Some Z.abs) "weigh"
            (λ _ _ w, (Raise TypeError, w)) x2 30 (with_cache sized_cache 1)
          = (Raise TypeError, with_cache sized_cache 1)) as Hrun'
    by reflexivity.
  rewrite Hrun' in Hother. discriminate Hother.
Qed.



(** A rejected store, in a method that calls another decorated
    method.  [gross] calls [weigh], whose result 30 goes to the cache
    of [weigh]; its own results, 90 and then 150, are too large for
    its cache, which stays empty: both calls return what they
    computed, and the second computes again. *)
Lemma rejection_transparency_witness :
  run_results
    (wrapped LRU.new 64 keyfcn_default (Some Z.abs) "gross" Variants.gross)
    [(x1, 3); (x2, 5)] fresh
    = [Ok 90; Ok 150].
Proof.
  pose (w1 := World (Some {["gross" := 0%nat]}) [sized_cache] 0%nat : world).
  pose (w2 := World (Some (<["weigh" := 1%nat]> {["gross" := 0%nat]}))
                [sized_cache; LRU.Build 64 (λ _, 1) [(key, 30)]] 1%nat
              : world).
  destruct (rejection_transparency LRU.new 64 keyfcn_default (Some Z.abs)
              "gross" Variants.gross x1 3 fresh 0%nat key w1 90 w2 w2)
    as (Hfirst & _ & Hnext & Hlacks).
  - exists w1. split_and!; reflexivity.
  - reflexivity.
  - reflexivity.
  - cbn [run_results]. rewrite Hfirst. cbn [fst snd].
    rewrite (Hnext 0%nat x2 (Hlacks eq_refl eq_refl) eq_refl Variants.gross 5).
    reflexivity.
Defined.

(** The claim C3 as the specification states it fails for a method
    that overrides the decorated [weigh] and calls it: the two
    wrappers share the cache registered as [weigh].  The first call
    misses, the method returns 90 and the cache rejects it; but the
    overridden method has left its own result, 30, under the key, so
    the next call with that key does not compute again: it returns 30
    whatever the method is. *)
Lemma rejection_transparency_counterexample :
  probes LRU.new 64 keyfcn_default (Some Z.abs) "weigh" x1 fresh 0%nat key
    (Raise KeyError) (with_cache sized_cache 0) ∧
  Variants.gross x1 3 (with_cache sized_cache 0)
    = (Ok 90, with_cache (LRU.Build 64 Z.abs [(key, 30)]) 1) ∧
  cache_setitem 0%nat key 90 (with_cache (LRU.Build 64 Z.abs [(key, 30)]) 1)
    = (Raise ValueError, with_cache (LRU.Build 64 Z.abs [(key, 30)]) 1) ∧
  keyfcn_default x2 = keyfcn_default x1 ∧
  run_results
    (wrapped LRU.new 64 keyfcn_default (Some Z.abs) "weigh" Variants.gross)
    [(x1, 3); (x2, 5)] fresh
    = [Ok 90; Ok 30] ∧
  (∀ g : ndarray → Z → M cache nat Z,
     fst (wrapped LRU.new 64 keyfcn_default (Some Z.abs) "weigh" g x2 5
            (with_cache (LRU.Build 64 Z.abs [(key, 30)]) 1)) = Ok 30).
Proof.
  split_and!; [|reflexivity..].
  exists (with_cache sized_cache 0). split_and!; reflexivity.
Qed.

(** A failing method: [weigh(x1, -1)] raises [KeyError], which reaches
    the caller although the wrapper has an [except KeyError] clause of
    its own; nothing is cached, and the next call runs the body
    again. *)
Lemma failure_propagates_witness :
  run_results (call memoized_default) [(x1, -1); (x2, -1)] fresh
    = [Raise KeyError; Raise KeyError] ∧
  attrs (run_calls (call memoized_default) [(x1, -1); (x2, -1)] fresh)
    = 2%nat.
Proof.
  destruct (failure_propagates LRU.new 64 keyfcn_default None "weigh"
              weigh_body x1 (-1) fresh 0%nat key
              (with_cache default_cache 0) KeyError
              (with_cache default_cache 1))
    as (Hfirst & Hnext & Hlacks).
  - exists (with_cache default_cache 0). split_and!; reflexivity.
  - reflexivity.
  - change (call memoized_default)
      with (wrapped LRU.new 64 keyfcn_default None "weigh" weigh_body).
    cbn [run_results run_calls]. rewrite Hfirst. cbn [fst snd].
    rewrite (Hnext 0%nat x2 (Hlacks eq_refl eq_refl) eq_refl weigh_body (-1)).
    split; reflexivity.
Defined.

(** The claim C4 as the specification states it fails for a method
    that overrides the decorated [weigh], calls it and then raises.
    The exception reaches the caller, and the wrapper stores nothing;
    but the overridden method has left its result, 30, under the key,
    so the next call with that key is a hit and the method is not
    called again. *)
Lemma failure_propagates_counterexample :
  probes LRU.new 64 keyfcn_default None "weigh" x1 fresh 0%nat key
    (Raise KeyError) (with_cache default_cache 0) ∧
  Variants.fragile x1 3 (with_cache default_cache 0)
    = (Raise (RuntimeError "too heavy"),
       with_cache (LRU.Build 64 (λ _, 1) [(key, 30)]) 1) ∧
  keyfcn_default x2 = keyfcn_default x1 ∧
  run_results
    (wrapped LRU.new 64 keyfcn_default None "weigh" Variants.fragile)
    [(x1, 3); (x2, 3)] fresh
    = [Raise (RuntimeError "too heavy"); Ok 30] ∧
  (∀ g : ndarray → Z → M cache nat Z,
     fst (wrapped LRU.new 64 keyfcn_default None "weigh" g x2 3
            (with_cache (LRU.Build 64 (λ _, 1) [(key, 30)]) 1)) = Ok 30).
Proof.
  split_and!; [|reflexivity..].
  exists (with_cache default_cache 0). split_and!; reflexivity.
Qed.

(** An instance whose initializer never ran. *)
Lemma registry_absent_is_fatal_witness :
  call memoized_default x1 3 bare = (Raise AttributeError, bare).
Proof.
  apply (registry_absent_is_fatal LRU.new 64 keyfcn_default None weigh x1 3 bare).
  reflexivity.
Defined.



(** The two example arrays live in different buffers, in different
    layouts, and have the same key. *)
Lemma keyfcn_default_same_content_witness :
  data x1 ≠ data x2 ∧ memory x1 ≠ memory x2 ∧
  keyfcn_default x1 = keyfcn_default x2.
Proof.
  split_and!; [done..|].
  apply (keyfcn_default_same_content x1 x2).
  by apply (bool_decide_unpack (same_content x1 x2)).
Defined.
End Scale_facts.

(** ** Where results and exceptions come from *)

Section Provenance.
Context {Key V C U Arr Rest CArgs : Type} `{!Cache Key V C}.
Variable cachetype : Z → CArgs → res C.
Variable cachesize : Z.
Variable keyfcn : Arr → res Key.
Variable cargs : CArgs.
Variable mname : string.

Implicit Types (w : world C U) (cache : loc) (argkey : Key) (v : V).
Implicit Types (g : Arr → Rest → M C U V).

Local Abbreviation lookup :=
  (lookup_or_create (U := U) cachetype cachesize cargs mname).
Local Abbreviation wrapped_ := (wrapped (U := U) (Rest := Rest)
                             cachetype cachesize keyfcn cargs mname).
Local Abbreviation probes_ := (probes (U := U) cachetype cachesize keyfcn cargs mname).

(** X1: the key is derived after the cache was looked up or created
    (line 144 follows lines 132-143).  When the key function raises,
    the wrapper raises the same exception without calling the method,
    and the cache, new or old, is registered all the same. *)
Theorem key_failure g arrayarg rest w cache w0 e :
  lookup w = (Ok cache, w0) → keyfcn arrayarg = Raise e →
  wrapped_ g arrayarg rest w = (Raise e, w0) ∧
  registered mname w0 = Some cache ∧ attrs w0 = attrs w.
Proof.
  intros Hl Hk. split.
  - unfold wrapped, wrapper, bind, lift. by rewrite Hl, Hk.
  - by destruct (lookup_or_create_ok _ _ _ _ _ _ _ Hl) as (? & ? & _).
Qed.

(** X2: when the name is not registered and the constructor of the
    cache class raises, the wrapper raises the same exception, be it
    [KeyError]; nothing is registered, the method is not called and
    the world is as before. *)
Theorem constructor_failure g arrayarg rest w e :
  is_Some (self_cachedict w) → registered mname w = None →
  cachetype cachesize cargs = Raise e →
  wrapped_ g arrayarg rest w = (Raise e, w).
Proof.
  intros [d Hd] Hm Hc. unfold registered in Hm. rewrite Hd in Hm.
  unfold wrapped, wrapper. unfold bind at 1.
  by rewrite (lookup_or_create_missing _ _ _ _ w d), Hc.
Qed.

(** X3: only [KeyError] counts as a miss.  Any other exception of the
    cache lookup leaves the wrapper as it is, and the method is not
    called. *)
Theorem lookup_error_propagates g arrayarg rest w cache argkey e w1 :
  probes_ arrayarg w cache argkey (Raise e) w1 → e ≠ KeyError →
  wrapped_ g arrayarg rest w = (Raise e, w1).
Proof.
  intros (w0 & Hl & Hk & Hg) He.
  unfold wrapped, wrapper, bind, lift, try_except.
  rewrite Hl, Hk, Hg. by case_decide.
Qed.

(** X4: only [ValueError] counts as a rejected store.  Any other
    exception of the store leaves the wrapper as it is, although the
    method has run and returned: the computed value is lost to the
    caller. *)
Theorem store_error_propagates g arrayarg rest w cache argkey w1 v w2 e w3 :
  probes_ arrayarg w cache argkey (Raise KeyError) w1 →
  g arrayarg rest w1 = (Ok v, w2) →
  cache_setitem cache argkey v w2 = (Raise e, w3) → e ≠ ValueError →
  wrapped_ g arrayarg rest w = (Raise e, w3).
Proof.
  intros Hmiss Hcall Hset He. erewrite wrapped_miss by done.
  unfold compute_and_store, bind, try_except. rewrite Hcall, Hset.
  by case_decide.
Qed.

(** X5: a value the wrapper returns is the value the cache held under
    the key of the array argument, or the value the method returned
    for the arguments of this very call, stored or rejected.  The
    wrapper makes up no value. *)
Theorem value_provenance g arrayarg rest w v w' :
  wrapped_ g arrayarg rest w = (Ok v, w') →
  ∃ cache argkey,
    probes_ arrayarg w cache argkey (Ok v) w' ∨
    ∃ w1 w2,
      probes_ arrayarg w cache argkey (Raise KeyError) w1 ∧
      g arrayarg rest w1 = (Ok v, w2) ∧
      (cache_setitem cache argkey v w2 = (Ok tt, w') ∨
       cache_setitem cache argkey v w2 = (Raise ValueError, w')).
Proof.
  unfold wrapped, wrapper, bind, lift, try_except.
  destruct (lookup w) as [[cache|e] w0] eqn:Hl; [|done].
  destruct (keyfcn arrayarg) as [k|e] eqn:Hk; [|done].
  destruct (cache_getitem cache k w0) as [[v0|e] w1] eqn:Hg.
  { intros [= -> ->]. exists cache, k. left. by exists w0. }
  case_decide as He; [subst e|done].
  unfold compute_and_store, bind, try_except.
  destruct (g arrayarg rest w1) as [[v1|e] w2] eqn:Hcall; [|done].
  destruct (cache_setitem cache k v1 w2) as [[[]|e] w3] eqn:Hset.
  - intros [= -> ->]. exists cache, k. right. exists w1, w2.
    split_and!; [by exists w0|done|by left].
  - case_decide as He; [subst e|done].
    intros [= -> ->]. exists cache, k. right. exists w1, w2.
    split_and!; [by exists w0|done|by right].
Qed.

(** X6: the wrapper raises nothing of its own but the [AttributeError]
    of a missing registry.  Every other exception is the one the
    constructor of the cache class, the key function, the cache lookup
    (if not [KeyError]), the method or the store (if not [ValueError])
    raised. *)
Theorem exception_provenance g arrayarg rest w e w' :
  wrapped_ g arrayarg rest w = (Raise e, w') →
  (self_cachedict w = None ∧ e = AttributeError ∧ w' = w) ∨
  (registered mname w = None ∧ cachetype cachesize cargs = Raise e ∧ w' = w) ∨
  ∃ cache w0, lookup w = (Ok cache, w0) ∧
    ((keyfcn arrayarg = Raise e ∧ w' = w0) ∨
     ∃ argkey, keyfcn arrayarg = Ok argkey ∧
       ((cache_getitem cache argkey w0 = (Raise e, w') ∧ e ≠ KeyError) ∨
        ∃ w1, cache_getitem cache argkey w0 = (Raise KeyError, w1) ∧
          (g arrayarg rest w1 = (Raise e, w') ∨
           ∃ v w2, g arrayarg rest w1 = (Ok v, w2) ∧
                   cache_setitem cache argkey v w2 = (Raise e, w') ∧
                   e ≠ ValueError))).
Proof.
  unfold wrapped, wrapper, bind, lift, try_except.
  destruct (lookup w) as [[cache|e0] w0] eqn:Hl.
  - intros Hrun. right. right. exists cache, w0. split; [done|].
    destruct (keyfcn arrayarg) as [k|e1] eqn:Hk.
    + right. exists k. split; [done|].
      destruct (cache_getitem cache k w0) as [[v0|e1] w1] eqn:Hg; [done|].
      case_decide as He; [subst e1|].
      * right. exists w1. split; [done|].
        unfold compute_and_store, bind, try_except in Hrun.
        destruct (g arrayarg rest w1) as [[v1|e1] w2] eqn:Hcall.
        -- right. exists v1, w2. split; [done|].
           destruct (cache_setitem cache k v1 w2) as [[[]|e1] w3] eqn:Hset;
             [done|].
           case_decide; [done|]. by injection Hrun as -> ->.
        -- left. by injection Hrun as -> ->.
      * left. by injection Hrun as -> ->.
    + left. by injection Hrun as -> ->.
  - intros [= -> ->].
    destruct (self_cachedict w) as [d|] eqn:Hd.
    + right. left. destruct (d !! mname) as [l|] eqn:Hm.
      * rewrite (lookup_or_create_registered _ _ _ _ w l) in Hl; [done|].
        unfold registered. by rewrite Hd.
      * rewrite (lookup_or_create_missing _ _ _ _ w d) in Hl by done.
        unfold registered. rewrite Hd.
        destruct (cachetype cachesize cargs); [done|].
        by injection Hl as -> ->.
    + left. rewrite lookup_or_create_absent in Hl by done.
      by injection Hl as <- <-.
Qed.

(** X7: when the registered cache holds the key, the wrapper returns
    the cached value whatever the method is, and changes the cache
    object it read and nothing else: the registry, the other
    attributes of the instance and every other cache object are as
    before. *)
Theorem hit_changes_one_cache g arrayarg rest w cache c argkey v c' :
  registered mname w = Some cache → caches w !! cache = Some c →
  keyfcn arrayarg = Ok argkey → getitem c argkey = (Ok v, c') →
  ∃ w1,
    wrapped_ g arrayarg rest w = (Ok v, w1) ∧
    self_cachedict w1 = self_cachedict w ∧ attrs w1 = attrs w ∧
    length (caches w1) = length (caches w) ∧
    caches w1 !! cache = Some c' ∧
    ∀ other, other ≠ cache → caches w1 !! other = caches w !! other.
Proof.
  intros Hreg Hc Hk Hg.
  exists (World (self_cachedict w) (<[cache := c']> (caches w)) (attrs w)).
  split_and!.
  - unfold wrapped, wrapper, bind, lift, try_except.
    rewrite (lookup_or_create_registered _ _ _ _ w cache), Hk by done.
    unfold cache_getitem.
    by rewrite (on_cache_eq cache _ w c (Ok v) c' Hc Hg).
  - done.
  - done.
  - apply length_insert.
  - apply list_lookup_insert_eq. by eapply lookup_lt_Some.
  - intros other Hne. by apply list_lookup_insert_ne.
Qed.
End Provenance.

(** ** Sharing and not sharing caches *)

Section Sharing.
Context {Key V C U Arr Rest CArgs : Type} `{!Cache Key V C}.
Context `{!EvictionPolicy Key V C}.
Variable cachetype : Z → CArgs → res C.
Variable cachesize : Z.
Variable keyfcn : Arr → res Key.
Variable cargs : CArgs.

Implicit Types (w : world C U) (cache : loc) (argkey : Key) (v : V).
Implicit Types (g : Arr → Rest → M C U V).
Implicit Types (f : function C U Arr Rest V).

(** The registered cache of a name holds a value under a key. *)
Local Abbreviation holds mname w argkey v :=
  (∃ cache c c', registered mname w = Some cache ∧
                 caches w !! cache = Some c ∧ getitem c argkey = (Ok v, c')).

(** A call on a cache that holds the key is a hit, and the cache holds
    the key afterwards. *)
Lemma hit_keeps_holding mname g arrayarg rest w argkey v :
  holds mname w argkey v → keyfcn arrayarg = Ok argkey →
  let w1 := snd (wrapped cachetype cachesize keyfcn cargs mname g arrayarg rest w) in
  fst (wrapped cachetype cachesize keyfcn cargs mname g arrayarg rest w) = Ok v ∧
  attrs w1 = attrs w ∧ holds mname w1 argkey v.
Proof.
  intros (cache & c & c' & Hreg & Hc & Hg) Hk.
  erewrite wrapped_hit by (by eapply hit_when_cached). simpl.
  split_and!; [done..|].
  destruct (getitem_getitem _ _ _ _ Hg) as [c'' Hg'].
  exists cache, c', c''. split_and!; [done| |done].
  simpl. apply list_lookup_insert_eq. by eapply lookup_lt_Some.
Qed.

(** After a call that leaves its result in the cache, the cache holds
    the key. *)
Lemma caches_result_holds mname g arrayarg rest w v w' :
  keeps_entry mname g →
  caches_result cachetype cachesize keyfcn cargs mname g arrayarg rest w v w' →
  ∃ argkey, keyfcn arrayarg = Ok argkey ∧ holds mname w' argkey v.
Proof.
  intros Hm (l & k & [Hhit | (w1 & w2 & Hmiss & Hcall & Hset)]).
  - pose proof Hhit as (? & _ & Hk & _). exists k. split; [done|].
    apply probes_inv in Hhit as (Hreg & _ & c & c' & _ & Hg & Hc' & _); [|done].
    destruct (getitem_getitem _ _ _ _ Hg) as [c'' Hg']. by exists l, c', c''.
  - pose proof Hmiss as (? & _ & Hk & _). exists k. split; [done|].
    apply probes_inv in Hmiss as (Hreg & _); [|done].
    destruct (Hm arrayarg rest w1 l Hreg) as [Hreg2 _].
    rewrite Hcall in Hreg2. simpl in Hreg2.
    apply on_cache_inv in Hset as (c2 & c3 & Hc2 & Hs & ->); [|done].
    destruct (getitem_setitem _ _ _ _ Hs) as [c'' Hg'].
    exists l, c3, c''. split_and!; [done| |done].
    simpl. apply list_lookup_insert_eq. by eapply lookup_lt_Some.
Qed.

(** X8: once a result is in the cache, every later call with the same
    key returns it, however many there are and whatever the method is:
    the method is not called again and the attributes of the instance
    stay as they are.  (The contract has no eviction by reading; other
    keys are not stored in between.) *)
Theorem cached_stays_cached mname g0 g arrayarg rest w v w' calls :
  keeps_entry mname g0 →
  caches_result cachetype cachesize keyfcn cargs mname g0 arrayarg rest w v w' →
  Forall (λ call, keyfcn call.1 = keyfcn arrayarg) calls →
  run_results (wrapped cachetype cachesize keyfcn cargs mname g) calls w'
    = replicate (length calls) (Ok v) ∧
  attrs (run_calls (wrapped cachetype cachesize keyfcn cargs mname g) calls w')
    = attrs w'.
Proof.
  intros Hm Hres Hcalls.
  destruct (caches_result_holds _ _ _ _ _ _ _ Hm Hres) as (k & Hk & Hholds).
  clear Hres. revert w' Hholds.
  induction Hcalls as [|[a r] calls Ha _ IH]; intros w' Hholds; [done|].
  simpl in Ha. rewrite Hk in Ha.
  destruct (hit_keeps_holding mname g a r w' k v Hholds Ha) as (Hv & Hattrs & Hh).
  destruct (IH _ Hh) as [IH1 IH2]. simpl.
  split; [by rewrite Hv, IH1|by rewrite IH2].
Qed.

End Sharing.

(** ** The registry stays well formed, and methods stay apart *)

Section Isolation.
Context {Key V C U Arr Rest CArgs : Type} `{!Cache Key V C}.
Variable cachetype : Z → CArgs → res C.
Variable cachesize : Z.
Variable keyfcn : Arr → res Key.
Variable cargs : CArgs.
Variable mname : string.

Implicit Types (w : world C U) (cache : loc) (argkey : Key) (v : V).
Implicit Types (g : Arr → Rest → M C U V).

Local Abbreviation lookup :=
  (lookup_or_create (U := U) cachetype cachesize cargs mname).
Local Abbreviation wrapped_ := (wrapped (U := U) (Rest := Rest)
                             cachetype cachesize keyfcn cargs mname).

(** Worlds with the same registry and as many cache objects are well
    formed together. *)
Lemma well_formed_frame w w1 :
  self_cachedict w1 = self_cachedict w →
  length (caches w1) = length (caches w) →
  well_formed w → well_formed w1.
Proof.
  intros Hd Hlen [Hin Hinj]. unfold well_formed, registered in *.
  rewrite Hd, Hlen. by split.
Qed.

Lemma lookup_or_create_well_formed w r w0 :
  lookup w = (r, w0) → well_formed w → well_formed w0.
Proof.
  intros Hl [Hin Hinj].
  destruct (self_cachedict w) as [d|] eqn:Hd.
  - destruct (d !! mname) as [l|] eqn:Hm.
    + rewrite (lookup_or_create_registered _ _ _ _ w l) in Hl
        by (unfold registered; by rewrite Hd).
      by injection Hl as <- <-.
    + rewrite (lookup_or_create_missing _ _ _ _ w d) in Hl by done.
      destruct (cachetype cachesize cargs) as [c|e]; injection Hl as <- <-;
        [|done].
      unfold registered in Hin, Hinj. rewrite Hd in Hin, Hinj.
      split; unfold registered; simpl.
      * intros name l. rewrite length_app. simpl.
        destruct (decide (name = mname)) as [->|Hne].
        -- rewrite lookup_insert_eq. intros [= <-]. lia.
        -- rewrite lookup_insert_ne by done. intros Hl.
           apply Hin in Hl. lia.
      * intros n1 n2 l.
        destruct (decide (n1 = mname)) as [->|Hne1];
          destruct (decide (n2 = mname)) as [->|Hne2]; [done|..].
        -- rewrite lookup_insert_eq, lookup_insert_ne by done.
           intros [= <-] Hl. apply Hin in Hl. lia.
        -- rewrite lookup_insert_eq, lookup_insert_ne by done.
           intros Hl [= <-]. apply Hin in Hl. lia.
        -- rewrite !lookup_insert_ne by done. apply Hinj.
  - rewrite lookup_or_create_absent in Hl by done. by injection Hl as <- <-.
Qed.

(** A call keeps the registry well formed when the method does. *)
Lemma wrapped_well_formed g arrayarg rest w :
  (∀ arrayarg rest w, well_formed w → well_formed (snd (g arrayarg rest w))) →
  well_formed w → well_formed (snd (wrapped_ g arrayarg rest w)).
Proof.
  intros Hg Hw. rewrite wrapped_unfold.
  destruct (lookup w) as [[cache|e] w0] eqn:Hl;
    apply lookup_or_create_well_formed in Hl; [|done..].
  unfold bind, lift, try_except.
  destruct (keyfcn arrayarg) as [k|e]; simpl; [|done].
  destruct (cache_getitem cache k w0) as [r0 w1] eqn:Hget.
  apply on_cache_frame in Hget as (Hd1 & _ & Hlen1).
  assert (well_formed w1) as Hw1 by by eapply well_formed_frame.
  destruct r0 as [v|e]; simpl; [done|].
  case_decide; simpl; [|done].
  unfold compute_and_store, bind, try_except.
  specialize (Hg arrayarg rest w1 Hw1).
  destruct (g arrayarg rest w1) as [[v|e'] w2]; simpl in *; [|done].
  destruct (cache_setitem cache k v w2) as [r3 w3] eqn:Hset.
  apply on_cache_frame in Hset as (Hd3 & _ & Hlen3).
  assert (well_formed w3) as Hw3 by by eapply well_formed_frame.
  destruct r3 as [[]|e3]; simpl; [done|]. by case_decide.
Qed.

(** X10: the initializer makes the registry well formed, and calls of
    a decorated method keep it so when the method does: at any time
    every registered cache is an object of the store, and no two names
    share one. *)
Theorem well_formed_invariant {Args} (args : Args) g calls w :
  (∀ arrayarg rest w, well_formed w → well_formed (snd (g arrayarg rest w))) →
  well_formed (run_calls (wrapped_ g) calls (snd (__init__ args w))).
Proof.
  intros Hg.
  assert (well_formed (snd (__init__ (C := C) (U := U) args w))) as Hinit.
  { split; unfold registered; simpl; intros ?; intros; by simplify_map_eq. }
  revert Hinit. generalize (snd (__init__ (C := C) (U := U) args w)) as w0.
  induction calls as [|[a r] calls IH]; intros w0 Hw0; [done|].
  simpl. apply IH. by apply wrapped_well_formed.
Qed.

(** A cache operation on one object leaves the others alone. *)
Lemma on_cache_other {A} cache (op : C → res A * C) w r w1 other :
  on_cache cache op w = (r, w1) → other ≠ cache →
  self_cachedict w1 = self_cachedict w ∧
  caches w1 !! other = caches w !! other.
Proof.
  unfold on_cache. destruct (caches w !! cache) as [c|].
  - destruct (op c) as [r' c']. intros [= <- <-] Hne. simpl.
    by rewrite list_lookup_insert_ne.
  - by intros [= <- <-].
Qed.

(** What the wrapper does once it holds the cache. *)
Local Abbreviation continue g cache arrayarg rest :=
  (argkey <- lift (keyfcn arrayarg) ;;
   try_except (cache_getitem cache argkey) KeyError
     (compute_and_store g cache argkey arrayarg rest)).

(** Creating a cache leaves the registered objects as they are. *)
Lemma lookup_or_create_other w r w0 name cache :
  lookup w = (r, w0) → well_formed w → registered name w = Some cache →
  caches w0 !! cache = caches w !! cache.
Proof.
  intros Hl [Hin _] Hreg. pose proof (Hin _ _ Hreg) as Hlt.
  destruct (self_cachedict w) as [d|] eqn:Hd.
  - destruct (d !! mname) as [l|] eqn:Hm.
    + rewrite (lookup_or_create_registered _ _ _ _ w l) in Hl
        by (unfold registered; by rewrite Hd).
      by injection Hl as <- <-.
    + rewrite (lookup_or_create_missing _ _ _ _ w d) in Hl by done.
      destruct (cachetype cachesize cargs) as [c|e]; injection Hl as <- <-;
        [|done].
      simpl. by apply lookup_app_l.
  - rewrite lookup_or_create_absent in Hl by done. by injection Hl as <- <-.
Qed.

(** With its own cache in hand, the wrapper leaves any other registered
    cache as it is, when the method does. *)
Lemma continue_other g mine arrayarg rest w name cache :
  cache ≠ mine → registered name w = Some cache → keeps_cache name g →
  registered name (snd (continue g mine arrayarg rest w)) = Some cache ∧
  caches (snd (continue g mine arrayarg rest w)) !! cache = caches w !! cache.
Proof.
  intros Hne Hreg Hg. unfold bind, lift, try_except.
  destruct (keyfcn arrayarg) as [k|e]; simpl; [|done].
  destruct (cache_getitem mine k w) as [r0 w1] eqn:Hget.
  destruct (on_cache_other _ _ _ _ _ cache Hget Hne) as [Hd1 Hc1].
  assert (registered name w1 = Some cache) as Hreg1.
  { unfold registered in *. by rewrite Hd1. }
  destruct r0 as [v|e]; simpl; [done|].
  case_decide; simpl; [|done].
  unfold compute_and_store, bind, try_except.
  destruct (Hg arrayarg rest w1 cache Hreg1) as [Hreg2 Hc2].
  destruct (g arrayarg rest w1) as [[v|e'] w2]; simpl in *;
    [|by rewrite Hc2].
  destruct (cache_setitem mine k v w2) as [r3 w3] eqn:Hset.
  destruct (on_cache_other _ _ _ _ _ cache Hset Hne) as [Hd3 Hc3].
  assert (registered name w3 = Some cache ∧
          caches w3 !! cache = caches w !! cache) as Hw3.
  { split; [unfold registered in *; by rewrite Hd3|].
    by rewrite Hc3, Hc2. }
  destruct r3 as [[]|e3]; simpl; [done|]. by case_decide.
Qed.

(** X11: methods of different names do not touch each other's caches.
    In a well-formed world, a call of the method named [mname] leaves
    the entry of any other name, and the cache object behind it, as
    they were, when the method body does. *)
Theorem other_caches_untouched g arrayarg rest w name cache :
  well_formed w → name ≠ mname →
  registered name w = Some cache →
  keeps_cache name g →
  registered name (snd (wrapped_ g arrayarg rest w)) = Some cache ∧
  caches (snd (wrapped_ g arrayarg rest w)) !! cache = caches w !! cache.
Proof.
  intros Hw Hne Hreg Hg. rewrite wrapped_unfold.
  destruct (lookup w) as [[mine|e] w0] eqn:Hl.
  - pose proof (lookup_or_create_well_formed _ _ _ Hl Hw) as [_ Hinj0].
    pose proof (lookup_or_create_other _ _ _ _ _ Hl Hw Hreg) as Hc0.
    destruct (lookup_or_create_keeps _ _ _ _ _ _ _ _ _ Hl Hreg) as [Hreg0 _].
    destruct (lookup_or_create_ok _ _ _ _ _ _ _ Hl) as (Hmine & _ & _).
    assert (cache ≠ mine) as Hother.
    { intros ->. by apply Hne, (Hinj0 _ _ mine). }
    destruct (continue_other g mine arrayarg rest w0 name cache Hother Hreg0 Hg)
      as [Hreg1 Hc1].
    split; [done|]. by rewrite Hc1.
  - apply lookup_or_create_raises in Hl as ->. done.
Qed.

(** X12: calling the initializer again forgets what was cached.  The
    next call of a decorated method gets a new cache object, behind the
    old ones in the store, and, the new cache holding nothing under
    the key, computes. *)
Theorem reinit_recomputes {Args} (args : Args) g arrayarg rest w c argkey c' :
  cachetype cachesize cargs = Ok c → keyfcn arrayarg = Ok argkey →
  getitem c argkey = (Raise KeyError, c') →
  wrapped_ g arrayarg rest (snd (__init__ args w))
    = compute_and_store g (length (caches w)) argkey arrayarg rest
        (World (Some {[mname := length (caches w)]}) (caches w ++ [c'])
               (attrs w)).
Proof.
  intros Hc Hk Hg. rewrite wrapped_unfold.
  rewrite (lookup_or_create_missing _ _ _ _ _ ∅), Hc by done.
  unfold bind, lift, try_except. rewrite Hk. simpl.
  unfold cache_getitem.
  erewrite on_cache_eq; [|by apply list_lookup_middle|done].
  simpl. rewrite insert_empty, insert_app_r_alt by done.
  by rewrite Nat.sub_diag.
Qed.
End Isolation.

(** ** The example classes, again *)

Module Variants_facts.
Import Scale.

(** The world after [weigh(x1, 3)] on a fresh instance: 30 is cached,
    the body ran once. *)
Local Abbreviation cached30 :=
  (with_cache (LRU.Build 64 (λ _, 1) [(key, 30)]) 1).

Lemma weigh_caches_result :
  caches_result LRU.new 64 keyfcn_default None "weigh" weigh_body
    x1 3 fresh 30 cached30.
Proof.
  exists 0%nat, key. right.
  exists (with_cache default_cache 0), (with_cache default_cache 1).
  split_and!; [|reflexivity..].
  exists (with_cache default_cache 0). split_and!; reflexivity.
Qed.

(** A key function that raises: the exception reaches the caller, and
    the empty cache is registered. *)
Lemma key_failure_witness :
  wrapped LRU.new 64 Variants.keyfcn_failing None "weigh" weigh_body x1 3 fresh
    = (Raise TypeError, with_cache default_cache 0) ∧
  registered "weigh" (with_cache default_cache 0) = Some 0%nat ∧
  attrs (with_cache default_cache 0) = attrs fresh.
Proof.
  apply (key_failure LRU.new 64 Variants.keyfcn_failing None "weigh"
           weigh_body x1 3 fresh 0%nat (with_cache default_cache 0) TypeError);
    reflexivity.
Defined.

(** A constructor that raises. *)
Lemma constructor_failure_witness :
  wrapped Variants.cachetype_failing 64 keyfcn_default None "weigh" weigh_body
    x1 3 fresh = (Raise TypeError, fresh).
Proof.
  apply (constructor_failure Variants.cachetype_failing 64 keyfcn_default None
           "weigh" weigh_body x1 3 fresh TypeError); [by eexists|reflexivity..].
Defined.

(** An object that cannot be subscripted: the method does not run. *)
Lemma lookup_error_propagates_witness :
  wrapped (Cache0 := Variants.not_subscriptable) (λ _ (_ : unit), Ok tt) 64
    keyfcn_default tt "weigh" Variants.weigh_unit x1 3 Variants.fresh_unit
    = (Raise TypeError, Variants.with_unit 0).
Proof.
  apply (lookup_error_propagates (Cache0 := Variants.not_subscriptable)
           (λ _ (_ : unit), Ok tt) 64 keyfcn_default tt "weigh"
           Variants.weigh_unit x1 3 Variants.fresh_unit 0%nat key TypeError
           (Variants.with_unit 0)).
  - exists (Variants.with_unit 0). split_and!; reflexivity.
  - discriminate.
Defined.

(** An object that cannot be assigned to: the method runs, and its
    result 30 does not reach the caller. *)
Lemma store_error_propagates_witness :
  wrapped (Cache0 := Variants.read_only) (λ _ (_ : unit), Ok tt) 64
    keyfcn_default tt "weigh" Variants.weigh_unit x1 3 Variants.fresh_unit
    = (Raise TypeError, Variants.with_unit 1).
Proof.
  apply (store_error_propagates (Cache0 := Variants.read_only)
           (λ _ (_ : unit), Ok tt) 64 keyfcn_default tt "weigh"
           Variants.weigh_unit x1 3 Variants.fresh_unit 0%nat key
           (Variants.with_unit 0) 30 (Variants.with_unit 1) TypeError
           (Variants.with_unit 1)).
  - exists (Variants.with_unit 0). split_and!; reflexivity.
  - reflexivity.
  - reflexivity.
  - discriminate.
Defined.

(** The 30 that [weigh(x1, 3)] returns has one of the two origins. *)
Lemma value_provenance_witness :
  ∃ cache argkey,
    probes LRU.new 64 keyfcn_default None "weigh" x1 fresh cache argkey
      (Ok 30) cached30 ∨
    ∃ w1 w2,
      probes LRU.new 64 keyfcn_default None "weigh" x1 fresh cache argkey
        (Raise KeyError) w1 ∧
      weigh_body x1 3 w1 = (Ok 30, w2) ∧
      (cache_setitem cache argkey 30 w2 = (Ok tt, cached30) ∨
       cache_setitem cache argkey 30 w2 = (Raise ValueError, cached30)).
Proof.
  apply (value_provenance LRU.new 64 keyfcn_default None "weigh" weigh_body
           x1 3 fresh 30 cached30).
  reflexivity.
Defined.

(** The [KeyError] of [weigh(x1, -1)] has one of the listed origins. *)
Lemma exception_provenance_witness :
  (self_cachedict fresh = None ∧ KeyError = AttributeError ∧
   with_cache default_cache 1 = fresh) ∨
  (registered "weigh" fresh = None ∧
   (LRU.new 64 None : res cache) = Raise KeyError ∧
   with_cache default_cache 1 = fresh) ∨
  ∃ cache w0, lookup_or_create LRU.new 64 None "weigh" fresh = (Ok cache, w0) ∧
    ((keyfcn_default x1 = Raise KeyError ∧ with_cache default_cache 1 = w0) ∨
     ∃ argkey, keyfcn_default x1 = Ok argkey ∧
       ((cache_getitem cache argkey w0
           = (Raise KeyError, with_cache default_cache 1) ∧
         KeyError ≠ KeyError) ∨
        ∃ w1, cache_getitem cache argkey w0 = (Raise KeyError, w1) ∧
          (weigh_body x1 (-1) w1 = (Raise KeyError, with_cache default_cache 1) ∨
           ∃ v w2, weigh_body x1 (-1) w1 = (Ok v, w2) ∧
                   cache_setitem cache argkey v w2
                     = (Raise KeyError, with_cache default_cache 1) ∧
                   KeyError ≠ ValueError))).
Proof.
  apply (exception_provenance LRU.new 64 keyfcn_default None "weigh" weigh_body
           x1 (-1) fresh KeyError (with_cache default_cache 1)).
  reflexivity.
Defined.

(** A hit on a cache of two items, after the calls that stored them:
    the item read becomes the most recently used, and nothing else
    changes. *)
Lemma hit_changes_one_cache_witness :
  ∃ w1,
    call memoized_default x2 5
      (run_calls (call memoized_default) [(x1, 3); (Variants.x3, 1)] fresh)
      = (Ok 30, w1) ∧
    self_cachedict w1
      = self_cachedict
          (run_calls (call memoized_default) [(x1, 3); (Variants.x3, 1)] fresh) ∧
    attrs w1
      = attrs
          (run_calls (call memoized_default) [(x1, 3); (Variants.x3, 1)] fresh) ∧
    length (caches w1)
      = length
          (caches
             (run_calls (call memoized_default) [(x1, 3); (Variants.x3, 1)]
                fresh)) ∧
    caches w1 !! 0%nat
      = Some (LRU.Build 64 (λ _, 1) [([x09]%byte, 9); (key, 30)]) ∧
    ∀ other, other ≠ 0%nat →
      caches w1 !! other
        = caches
            (run_calls (call memoized_default) [(x1, 3); (Variants.x3, 1)]
               fresh) !! other.
Proof.
  apply (hit_changes_one_cache LRU.new 64 keyfcn_default None "weigh"
           weigh_body x2 5
           (run_calls (call memoized_default) [(x1, 3); (Variants.x3, 1)] fresh)
           0%nat (LRU.Build 64 (λ _, 1) [(key, 30); ([x09]%byte, 9)])
           key 30 (LRU.Build 64 (λ _, 1) [([x09]%byte, 9); (key, 30)]));
    reflexivity.
Defined.

(** Three more calls, with other scales, one of them negative: all are
    served the cached 30, and the body has still run once. *)
Lemma cached_stays_cached_witness :
  run_results (call memoized_default) [(x2, 5); (x1, 7); (x2, -1)] cached30
    = [Ok 30; Ok 30; Ok 30] ∧
  attrs (run_calls (call memoized_default) [(x2, 5); (x1, 7); (x2, -1)] cached30)
    = 1%nat.
Proof.
  apply (cached_stays_cached LRU.new 64 keyfcn_default None "weigh"
           weigh_body weigh_body x1 3 fresh 30 cached30
           [(x2, 5); (x1, 7); (x2, -1)]).
  - intros array scale w cache Hreg. unfold weigh_body.
    by destruct (scale <? 0).
  - exists 0%nat, key. right.
    exists (with_cache default_cache 0), (with_cache default_cache 1).
    split_and!; [|reflexivity..].
    exists (with_cache default_cache 0). split_and!; reflexivity.
  - repeat constructor.
Defined.


(** The registry of the example instance after three calls. *)
Lemma well_formed_invariant_witness :
  well_formed (run_calls (call memoized_default)
                 [(x1, 3); (x2, -1); (x2, 5)] fresh).
Proof.
  apply (well_formed_invariant LRU.new 64 keyfcn_default None "weigh" tt
           weigh_body [(x1, 3); (x2, -1); (x2, 5)] bare).
  intros array scale w Hw. unfold weigh_body.
  destruct (scale <? 0); exact Hw.
Defined.

(** An instance with a second cache, registered for [spam]. *)
Local Abbreviation two_caches :=
  (World (Some (<["spam" := 1%nat]> {["weigh" := 0%nat]}))
     [default_cache; LRU.Build 2 (λ _, 1) [(key, 7)]] 0%nat : world).

(** A call of [weigh] leaves the cache of [spam] as it is. *)
Lemma other_caches_untouched_witness :
  registered "spam" (snd (call memoized_default x1 3 two_caches)) = Some 1%nat ∧
  caches (snd (call memoized_default x1 3 two_caches)) !! 1%nat
    = Some (LRU.Build 2 (λ _, 1) [(key, 7)]).
Proof.
  apply (other_caches_untouched LRU.new 64 keyfcn_default None "weigh"
           weigh_body x1 3 two_caches "spam" 1%nat).
  - split; unfold registered; simpl.
    + intros name cache Hc.
      apply lookup_insert_Some in Hc as [[_ <-]|[_ Hc]]; [lia|].
      apply lookup_singleton_Some in Hc as [_ <-]. lia.
    + intros n1 n2 cache H1 H2.
      apply lookup_insert_Some in H1 as [[<- <-]|[Hn1 H1]];
        apply lookup_insert_Some in H2 as [[<- H2]|[Hn2 H2]]; try done.
      * apply lookup_singleton_Some in H2 as [_ [=]].
      * apply lookup_singleton_Some in H1 as [_ <-]. done.
      * apply lookup_singleton_Some in H1 as [<- _].
        by apply lookup_singleton_Some in H2 as [<- _].
  - discriminate.
  - reflexivity.
  - intros array scale w cache Hreg. unfold weigh_body.
    by destruct (scale <? 0).
Defined.

(** After a second [__init__], [weigh(x2, 5)] computes 50 in a new
    cache; the old cache, with its 30, stays behind in the store. *)
Lemma reinit_recomputes_witness :
  call memoized_default x2 5 (snd (__init__ tt cached30))
    = (Ok 50,
       World (Some {["weigh" := 1%nat]})
         [LRU.Build 64 (λ _, 1) [(key, 30)]; LRU.Build 64 (λ _, 1) [(key, 50)]]
         2%nat).
Proof.
  etrans.
  - apply (reinit_recomputes LRU.new 64 keyfcn_default None "weigh" tt
             weigh_body x2 5 cached30 default_cache key default_cache);
      reflexivity.
  - reflexivity.
Defined.

(** The decorated [weigh] keeps the entry of any name. *)
Lemma wrapped_keeps_entry_witness :
  keeps_entry "spam" (call memoized_default).
Proof.
  apply (wrapped_keeps_entry LRU.new 64 keyfcn_default None "weigh"
           weigh_body "spam").
  intros array scale w cache Hreg. unfold weigh_body.
  by destruct (scale <? 0).
Defined.
End Variants_facts.


(** ** The default key of contiguous arrays *)

Section Contiguous.
Implicit Types (shape : list nat) (array : ndarray).

Lemma seq_from_zero start len :
  seq start len = map (λ j, start + j)%nat (seq 0 len).
Proof.
  revert start. induction len as [|len IH]; intros start; simpl; [done|].
  rewrite Nat.add_0_r. f_equal.
  rewrite (IH (S start)), (IH 1%nat), map_map.
  apply map_ext. intros j. lia.
Qed.

(** Rows of [width] consecutive numbers, one after the other, are the
    numbers below [rows * width]. *)
Lemma seq_rows {A} (F : nat → A) width rows :
  flat_map (λ i, map (λ j, F (i * width + j)%nat) (seq 0 width)) (seq 0 rows)
    = map F (seq 0 (rows * width)).
Proof.
  induction rows as [|rows IH]; [done|].
  rewrite seq_S, flat_map_app, IH. simpl. rewrite app_nil_r.
  replace (width + rows * width)%nat with (rows * width + width)%nat by lia.
  rewrite seq_app, map_app. f_equal. simpl.
  by rewrite (seq_from_zero (rows * width)), map_map.
Qed.

Lemma map_flat_map {A B D} (f : B → D) (g : A → list B) l :
  map f (flat_map g l) = flat_map (λ x, map f (g x)) l.
Proof.
  induction l as [|x l IH]; simpl; [done|]. by rewrite map_app, IH.
Qed.

(** The elements of a C-contiguous array, in C order, are the slots of
    its buffer, in order. *)
Lemma items_c_contiguous d mem isz shape off :
  0 ≤ off →
  map (item (Ndarray d mem off isz shape (c_strides isz shape))) (indices shape)
    = map (slot (Ndarray d mem off isz shape (c_strides isz shape)))
        (seq 0 (size shape)).
Proof.
  revert off. induction shape as [|n shape IH]; intros off Hoff.
  - simpl. unfold item, slot, position. simpl.
    by rewrite Z.add_0_r, Nat.add_0_r.
  - cbn [indices size foldr]. fold (size shape).
    rewrite map_flat_map, <- seq_rows.
    apply flat_map_ext. intros i.
    rewrite map_map.
    set (off' := off + Z.of_nat i * Z.of_nat (isz * size shape)).
    transitivity
      (map (item (Ndarray d mem off' isz shape (c_strides isz shape)))
         (indices shape)).
    { apply map_ext. intros idx. unfold item, position. simpl.
      do 3 f_equal. unfold off'. lia. }
    rewrite IH by (unfold off'; lia).
    apply map_ext. intros j. unfold slot. simpl. do 2 f_equal.
    unfold off'. lia.
Qed.

(** X14: the default key holds the bytes of the elements and nothing
    else.  Two C-contiguous arrays over the same bytes, with elements
    of the same size, get the same key when they have the same number
    of elements, whatever their shapes are. *)
Theorem keyfcn_default_ignores_shape (a b : ndarray) :
  c_contiguous a → c_contiguous b →
  memory a = memory b → offset a = offset b → itemsize a = itemsize b →
  size (shape a) = size (shape b) →
  keyfcn_default a = keyfcn_default b.
Proof.
  destruct a as [da mem off isz sa sta], b as [db memb offb iszb sb stb].
  intros [Hsa Hoa] [Hsb Hob] Hmem Hoff Hisz Hsize. simpl in *. subst.
  unfold keyfcn_default, tostring. simpl.
  rewrite !items_c_contiguous by done. by rewrite Hsize.
Qed.
End Contiguous.

Module Contiguous_facts.
(** A matrix and a vector with the same key. *)
Lemma keyfcn_default_ignores_shape_witness :
  shape Scale.x1 ≠ shape Variants.x1_flat ∧
  keyfcn_default Scale.x1 = keyfcn_default Variants.x1_flat.
Proof.
  split; [discriminate|].
  apply (keyfcn_default_ignores_shape Scale.x1 Variants.x1_flat);
    [by split| by split|reflexivity..].
Defined.
End Contiguous_facts.
